(** * The Gemini orchestrator of [backend/app/services/ai_service.py]

    A shallow embedding of [GeminiService]: the credential pool
    ([_load_api_keys], [_get_next_api_key], [_mark_key_failed]), the retry
    loop of [call_gemini] and the structured-output extractor
    [_parse_structured_output], followed by the properties the specification
    states about them.

    Python values are modelled as follows.
    - [str] is [string]; texts are taken in the ASCII range, where
      [str.strip], [str.lower] and the slices are byte-wise.
    - [self.failed_keys] (a [set] of indices) is a [gset nat],
      [self.key_usage_count] (a [dict]) is a [gmap nat nat], [self.api_keys]
      is a [list string].
    - An exception is a value of [exn]; a call that may raise returns a
      [result].
    - The upstream service, [random.uniform] and [json.loads] are outside
      this file: they are variables of the sections that use them.
    - A [float] is a rational number; the one place where the size of a
      float matters, the conversion of [2 ** attempt] in the delay of the
      retry loop, raises [OverflowError] as the conversion does. *)

From Stdlib Require Import ZArith QArith Lia Lqa Ascii String DecimalString.
From stdpp Require Import base gmap sets list list_numbers strings.

Local Open Scope string_scope.
Local Open Scope nat_scope.
Local Open Scope list_scope.

(** ** Exceptions and results *)

Inductive exn : Type :=
| ValueError (msg : string)
    (* raised by [_load_api_keys] *)
| NoAvailableKeys
    (* RuntimeError("No available Gemini API keys") *)
| ServiceFailed (retry_count : Z) (last_error : option string)
    (* RuntimeError(f"Gemini AI service failed after {retry_count}
       attempts: {last_error}") *)
| IndexError
| ZeroDivisionError
| OverflowError.
    (* "int too large to convert to float" *)

Inductive result (A : Type) : Type :=
| Ret (a : A)
| Raise (e : exn).
Arguments Ret {A} a.
Arguments Raise {A} e.

(** ** The credential pool *)

Module Pool.

Record GeminiService : Type := mkService {
  api_keys : list string;
  current_key_index : nat;
  key_usage_count : gmap nat nat;
  failed_keys : gset nat
}.

(** f'GEMINI_API_KEY_{i}' *)
Definition env_name (i : nat) : string :=
  String.append "GEMINI_API_KEY_" (NilEmpty.string_of_uint (Nat.to_uint i)).

(** The truth value of [os.getenv(..)]: [None] and [''] are false. *)
Definition truthy (v : option string) : bool :=
  match v with
  | Some (String _ _) => true
  | _ => false
  end.

Definition no_keys_message : string :=
  "No Gemini API keys found. At least GEMINI_API_KEY_1 is required for production mode.".

Section Construction.
(** [os.getenv] *)
Variable getenv : string -> option string.

(** The body of [for i in range(1, 5)]. *)
Definition load_step (keys : list string) (i : nat) : list string :=
  match getenv (env_name i) with
  | Some key => if truthy (Some key) then keys ++ [key] else keys
  | None => keys
  end.

Definition _load_api_keys : result (list string) :=
  let keys := foldl load_step [] (seq 1 4) in
  match keys with
  | [] => Raise (ValueError no_keys_message)
  | _ => Ret keys
  end.

Definition __init__ : result GeminiService :=
  match _load_api_keys with
  | Raise e => Raise e
  | Ret keys => Ret (mkService keys 0 ∅ ∅)
  end.
End Construction.

(** [[i for i in range(len(self.api_keys)) if i not in self.failed_keys]] *)
Definition unfailed_indices (self : GeminiService) : list nat :=
  filter (λ i, i ∉ failed_keys self) (seq 0 (length (api_keys self))).

(** The failed set and [available_indices] after the reset branch. *)
Definition available (self : GeminiService) : gset nat * list nat :=
  match unfailed_indices self with
  | [] => (∅, seq 0 (length (api_keys self)))
  | _ => (failed_keys self, unfailed_indices self)
  end.

Definition with_failed (self : GeminiService) (failed : gset nat) : GeminiService :=
  mkService (api_keys self) (current_key_index self) (key_usage_count self) failed.

(** [available_indices[self.current_key_index % len(available_indices)]] *)
Definition selected_index (self : GeminiService) : result nat :=
  let available_indices := (available self).2 in
  match length available_indices with
  | O => Raise ZeroDivisionError
  | len =>
      match available_indices !! (current_key_index self mod len) with
      | Some i => Ret i
      | None => Raise IndexError
      end
  end.

Definition _get_next_api_key (self : GeminiService)
  : result (option string) * GeminiService :=
  match api_keys self with
  | [] => (Ret None, self)
  | _ =>
      let '(failed, available_indices) := available self in
      match selected_index self with
      | Raise e => (Raise e, with_failed self failed)
      | Ret selected =>
          let cursor := (current_key_index self + 1) mod length available_indices in
          match api_keys self !! selected with
          | None =>
              (Raise IndexError,
               mkService (api_keys self) cursor (key_usage_count self) failed)
          | Some key =>
              let usage := default 0 (key_usage_count self !! selected) + 1 in
              (Ret (Some key),
               mkService (api_keys self) cursor
                 (<[selected := usage]> (key_usage_count self)) failed)
          end
      end
  end.

(** [self.api_keys.index(api_key)]: the first position holding the value. *)
Definition index (keys : list string) (api_key : string) : option nat :=
  fst <$> list_find (λ k, k = api_key) keys.

Definition _mark_key_failed (self : GeminiService) (api_key : string) : GeminiService :=
  match index (api_keys self) api_key with
  | Some key_index => with_failed self (failed_keys self ∪ {[key_index]})
  | None => self
  end.

End Pool.

(** ** The [str] methods the service uses *)

Module Str.

(** [str.isspace] on one ASCII character: tab, line feed, vertical tab, form
    feed, carriage return, the four separators 28..31 and the space. *)
Definition isspace (c : ascii) : bool :=
  let n := nat_of_ascii c in
  ((9 <=? n) && (n <=? 13)) || ((28 <=? n) && (n <=? 32)).

Fixpoint lstrip (s : string) : string :=
  match s with
  | String c s' => if isspace c then lstrip s' else s
  | EmptyString => EmptyString
  end.

Fixpoint rstrip (s : string) : string :=
  match s with
  | String c s' =>
      match rstrip s' with
      | EmptyString => if isspace c then EmptyString else String c EmptyString
      | r => String c r
      end
  | EmptyString => EmptyString
  end.

Definition strip (s : string) : string := rstrip (lstrip s).

Definition len (s : string) : nat := String.length s.

(** [s[n:]], [s[:n]] and [s[:-n]] for a literal [n >= 0] *)
Definition slice_from (n : nat) (s : string) : string :=
  String.substring n (len s - n) s.
Definition slice_to (n : nat) (s : string) : string :=
  String.substring 0 n s.
Definition slice_to_last (n : nat) (s : string) : string :=
  String.substring 0 (len s - n) s.

(** [s[a:b]] for [0 <= a] and [0 <= b] *)
Definition slice (a b : Z) (s : string) : string :=
  String.substring (Z.to_nat a) (Z.to_nat (b - a)) s.

Definition startswith (s pre : string) : bool := String.prefix pre s.

Definition endswith (s suf : string) : bool :=
  (len suf <=? len s) && String.eqb (slice_from (len s - len suf) s) suf.

(** [s.find(sub)] counted from position [i]; -1 when there is none. *)
Fixpoint find_from (sub s : string) (i : Z) : Z :=
  if String.prefix sub s then i
  else match s with
       | String _ s' => find_from sub s' (i + 1)
       | EmptyString => -1
       end.
Definition find (s sub : string) : Z := find_from sub s 0.

(** [s.rfind(sub)] counted from position [i]; -1 when there is none. *)
Fixpoint rfind_from (sub s : string) (i : Z) : Z :=
  match s with
  | String _ s' =>
      let r := rfind_from sub s' (i + 1) in
      if 0 <=? r then r else if String.prefix sub s then i else -1
  | EmptyString => if String.prefix sub s then i else -1
  end%Z.
Definition rfind (s sub : string) : Z := rfind_from sub s 0.

(** [sub in s] *)
Definition contains (sub s : string) : bool := (0 <=? find s sub)%Z.

Definition lower_char (c : ascii) : ascii :=
  let n := nat_of_ascii c in
  if (65 <=? n) && (n <=? 90) then ascii_of_nat (n + 32) else c.

Fixpoint lower (s : string) : string :=
  match s with
  | String c s' => String (lower_char c) (lower s')
  | EmptyString => EmptyString
  end.

End Str.

(** ** The structured-output extractor *)

(** What [json.loads] returns, and the dictionary the extractor builds. *)
#[local] Set Warnings "-register-all".
Inductive value : Type :=
| VNone
| VBool (b : bool)
| VInt (n : Z)
| VFloat (x : Q)
| VStr (s : string)
| VList (items : list value)
| VDict (items : list (string * value)).

(** How a call of [json.loads] ends: with a value, with a
    [json.JSONDecodeError], or with another exception [e], where
    [str(e) = msg]: a [RecursionError] on a deeply nested text, the
    [ValueError] of the limit on the digits of an integer. *)
Inductive loaded : Type :=
| Loaded (v : value)
| JSONDecodeError
| OtherError (msg : string).

Module Extractor.

Definition parse_error_marker : string := "Failed to parse structured output".

(** The dictionary of the [except json.JSONDecodeError] branch. *)
Definition diagnostic (response : string) : value :=
  VDict [("error", VStr parse_error_marker);
         ("raw_response", VStr (Str.slice_to 500 response))].

(** The three [if]s that remove the markdown fence, in source order. *)
Definition remove_code_block (response : string) : string :=
  let response :=
    if Str.startswith response "```json" then Str.slice_from 7 response else response in
  let response :=
    if Str.startswith response "```" then Str.slice_from 3 response else response in
  let response :=
    if Str.endswith response "```" then Str.slice_to_last 3 response else response in
  response.

(** The argument of the [json.loads] call that is reached. *)
Definition json_str (response : string) : string :=
  let start_idx := Str.find response "{" in
  let end_idx := (Str.rfind response "}" + 1)%Z in
  if (0 <=? start_idx)%Z && (start_idx <? end_idx)%Z
  then Str.slice start_idx end_idx response
  else response.

Section Parse.
(** [json.loads] on a text *)
Variable json_loads : string -> loaded.

(** [inl] is what the function returns; [inr msg] is an exception that
    leaves it: the [except] clause catches [json.JSONDecodeError] only. *)
Definition _parse_structured_output (response : string) : value + string :=
  let response := Str.strip response in
  let response := remove_code_block response in
  match json_loads (json_str response) with
  | Loaded v => inl v
  | JSONDecodeError => inl (diagnostic response)
  | OtherError msg => inr msg
  end.
End Parse.

End Extractor.

(** ** The request/retry controller *)

Module Controller.
Import Pool.

(** What one underlying request does: [response.text] is read, or an
    exception [e] with [str(e) = msg] is raised somewhere in the [try]. *)
Inductive response : Type :=
| Text (text : string)
| Failure (msg : string).

(** What the caller can observe from outside: requests sent and sleeps. *)
Inductive event : Type :=
| Request (attempt : Z) (api_key : string)
| Sleep (wait_time : Q).

(** What [call_gemini] returns: [Union[str, Dict[str, Any]]]. *)
Inductive payload : Type :=
| Raw (result : string)
| Structured (parsed : value).

(** The locals of the loop that outlive one iteration, and the trace. *)
Record loop_state : Type := mkLoop {
  svc : GeminiService;
  last_error : option string;
  trace : list event
}.

(** How one iteration of [for attempt in range(retry_count)] ends. *)
Inductive flow : Type :=
| Return (v : payload)
| Raised (e : exn)
| Continue
| Break.

Definition empty_response_message : string := "Empty response from Gemini".

(** ["quota" in error_msg or "429" in error_msg or "rate limit" in error_msg]
    with [error_msg = str(e).lower()] *)
Definition is_quota_error (msg : string) : bool :=
  let error_msg := Str.lower msg in
  Str.contains "quota" error_msg
  || Str.contains "429" error_msg
  || Str.contains "rate limit" error_msg.

(** [range(n)] *)
Definition range (n : Z) : list Z := seqZ 0 n.

(** The failure an upstream answer amounts to, if it is one: the message
    of the raised exception, or that of the exception the service raises
    itself on an empty text.  A text that is not empty is no failure in
    itself; with a structured output the attempt can still fail on it, in
    the extractor. *)
Definition failure_of (r : response) : option string :=
  match r with
  | Failure msg => Some msg
  | Text EmptyString => Some empty_response_message
  | Text _ => None
  end.

(** The [float] of an [int], which [n + x] computes first when [x] is a
    float: an [int] that rounds to [2 ** 1024] or beyond, that is one from
    [2 ** 1024 - 2 ** 970] on, raises [OverflowError]; below, the float is
    taken to be the integer itself. *)
Definition float_of_int (n : Z) : result Q :=
  if (Z.abs n <? 2 ^ 1024 - 2 ^ 970)%Z then Ret (inject_Z n) else Raise OverflowError.

Section Call.
(** The upstream service at a given attempt with a given key. *)
Variable generate_content : Z -> string -> response.
(** The draw of [random.uniform(0, 1)] made at a given attempt. *)
Variable random_uniform : Z -> Q.
(** [json.loads] on a text *)
Variable json_loads : string -> loaded.

Variable structured_output : bool.
Variable retry_count : Z.

(** The [try] block: a returned payload, or the message of the exception
    that reaches [except Exception as e]. *)
Definition try_request (attempt : Z) (api_key : string) : payload + string :=
  match generate_content attempt api_key with
  | Failure msg => inr msg
  | Text EmptyString => inr empty_response_message
  | Text text =>
      let result := Str.strip text in
      if structured_output
      then
        match Extractor._parse_structured_output json_loads result with
        | inl parsed => inl (Structured parsed)
        | inr msg => inr msg
        end
      else inl (Raw result)
  end.

(** The [except Exception as e] block.  An exception raised in it leaves
    the loop and the call: it is neither caught nor wrapped. *)
Definition handle_error (attempt : Z) (api_key msg : string) (st : loop_state)
  : flow * loop_state :=
  if is_quota_error msg then
    (Continue, mkLoop (_mark_key_failed (svc st) api_key) (Some msg) (trace st))
  else if (attempt <? retry_count - 1)%Z then
    (* wait_time = (2 ** attempt) + random.uniform(0, 1) *)
    match float_of_int (2 ^ attempt) with
    | Ret base =>
        let wait_time := (base + random_uniform attempt)%Q in
        (Continue, mkLoop (svc st) (Some msg) (trace st ++ [Sleep wait_time]))
    | Raise e => (Raised e, mkLoop (svc st) (Some msg) (trace st))
    end
  else
    (Break, mkLoop (svc st) (Some msg) (trace st)).

(** One iteration of the loop. *)
Definition attempt_body (attempt : Z) (st : loop_state) : flow * loop_state :=
  let '(r, self) := _get_next_api_key (svc st) in
  let st := mkLoop self (last_error st) (trace st) in
  match r with
  | Raise e => (Raised e, st)
  | Ret None => (Raised NoAvailableKeys, st)
  | Ret (Some EmptyString) => (Raised NoAvailableKeys, st)
  | Ret (Some api_key) =>
      let st := mkLoop self (last_error st) (trace st ++ [Request attempt api_key]) in
      match try_request attempt api_key with
      | inl v => (Return v, st)
      | inr msg => handle_error attempt api_key msg st
      end
  end.

(** The loop over the attempts still to make, and the [raise] after it. *)
Fixpoint run_attempts (attempts : list Z) (st : loop_state)
  : result payload * loop_state :=
  match attempts with
  | [] => (Raise (ServiceFailed retry_count (last_error st)), st)
  | attempt :: rest =>
      match attempt_body attempt st with
      | (Return v, st') => (Ret v, st')
      | (Raised e, st') => (Raise e, st')
      | (Continue, st') => run_attempts rest st'
      | (Break, st') => (Raise (ServiceFailed retry_count (last_error st')), st')
      end
  end.

Definition call_gemini (self : GeminiService) : result payload * loop_state :=
  run_attempts (range retry_count) (mkLoop self None []).
End Call.

(** The requests of a trace, in order. *)
Definition requests (tr : list event) : list (Z * string) :=
  omap (λ ev, match ev with Request a k => Some (a, k) | Sleep _ => None end) tr.

(** The sleeps of a trace, in order. *)
Definition sleeps (tr : list event) : list Q :=
  omap (λ ev, match ev with Sleep w => Some w | Request _ _ => None end) tr.

End Controller.

(** ** Runs of the pool *)

Module Runs.
Import Pool Controller.

(** The indices chosen by [m] consecutive [_get_next_api_key] calls. *)
Fixpoint select_many (m : nat) (self : GeminiService) : list nat :=
  match m with
  | O => []
  | S m' =>
      match selected_index self with
      | Ret i => i :: select_many m' (_get_next_api_key self).2
      | Raise _ => []
      end
  end.

(** How often index [i] occurs among the chosen ones. *)
Definition times_selected (i : nat) (chosen : list nat) : nat :=
  length (filter (λ j, j = i) chosen).

(** The states a service constructed from the environment [getenv] can be
    in: the module-level instance is only ever touched by its own methods. *)
Inductive reachable (getenv : string -> option string) : GeminiService -> Prop :=
| reach_init self :
    __init__ getenv = Ret self -> reachable getenv self
| reach_next self :
    reachable getenv self -> reachable getenv (_get_next_api_key self).2
| reach_mark self api_key :
    reachable getenv self -> reachable getenv (_mark_key_failed self api_key)
| reach_call self generate_content random_uniform json_loads structured_output retry_count :
    reachable getenv self ->
    reachable getenv
      (svc (call_gemini generate_content random_uniform json_loads
              structured_output retry_count self).2).

(** The credential list of a constructed service: some key, none empty. *)
Definition well_formed (self : GeminiService) : Prop :=
  api_keys self ≠ [] ∧ Forall (λ key, key ≠ EmptyString) (api_keys self).

(** The service after [m] consecutive [_get_next_api_key] calls. *)
Fixpoint after_selections (m : nat) (self : GeminiService) : GeminiService :=
  match m with
  | O => self
  | S m' => after_selections m' (_get_next_api_key self).2
  end.

(** [self.key_usage_count.get(i, 0)] *)
Definition usage (self : GeminiService) (i : nat) : nat :=
  default 0 (key_usage_count self !! i).

(** [sum(self.key_usage_count.values())] *)
Definition total_usage (self : GeminiService) : nat :=
  map_fold (λ _ count acc, count + acc) 0 (key_usage_count self).

(** The cursor, the failed indices and the counted indices are positions of
    the credential list. *)
Definition in_range (self : GeminiService) : Prop :=
  current_key_index self < length (api_keys self) ∧
  (∀ i, i ∈ failed_keys self → i < length (api_keys self)) ∧
  (∀ i, is_Some (key_usage_count self !! i) → i < length (api_keys self)).

End Runs.

(** ** The extractor in the words of the specification *)

Module Described.

(** The position of the first occurrence of a character. *)
Fixpoint first_index (c : ascii) (s : string) : option nat :=
  match s with
  | EmptyString => None
  | String d s' => if Ascii.eqb d c then Some 0 else S <$> first_index c s'
  end.

(** The position of the last occurrence of a character. *)
Fixpoint last_index (c : ascii) (s : string) : option nat :=
  match s with
  | EmptyString => None
  | String d s' =>
      match last_index c s' with
      | Some j => Some (S j)
      | None => if Ascii.eqb d c then Some 0 else None
      end
  end.

(** Trim; strip a leading JSON fence marker; strip a leading plain marker
    only if the JSON one was absent; strip one trailing marker. *)
Definition normalize_exclusive (raw : string) : string :=
  let t := Str.strip raw in
  let t :=
    if Str.startswith t "```json" then Str.slice_from 7 t
    else if Str.startswith t "```" then Str.slice_from 3 t
    else t in
  if Str.endswith t "```" then Str.slice_to_last 3 t else t.

(** Trim; strip a leading JSON fence marker; strip a leading plain marker
    from what is left, whether or not the JSON one was there; strip one
    trailing marker. *)
Definition normalize (raw : string) : string :=
  let t := Str.strip raw in
  let t := if Str.startswith t "```json" then Str.slice_from 7 t else t in
  let t := if Str.startswith t "```" then Str.slice_from 3 t else t in
  if Str.endswith t "```" then Str.slice_to_last 3 t else t.

(** The text from the first opening brace to the last closing brace,
    both included, when the closing one comes later; else the whole text. *)
Definition brace_span (t : string) : string :=
  match first_index "{" t, last_index "}" t with
  | Some i, Some j =>
      if i <? j then String.substring i (j - i + 1) t else t
  | _, _ => t
  end.

(** Neither brace occurs in the text. *)
Definition brace_free (s : string) : Prop :=
  first_index "{" s = None ∧ first_index "}" s = None.

End Described.

(** ** The handlers that call the service

    [routers/website.py] and [routers/campaign.py] call the module-level
    [call_gemini] with [structured_output=True] and the default
    [retry_count=3], test the result and answer with a response model or
    with an [HTTPException].  The pydantic constructors, and what the
    handlers format from the request, are outside this file: they are
    variables of the section, returning a value or the message of the
    exception they raise. *)

Module Routers.
Import Pool Controller.

(** What can reach an [except Exception as e] of a handler. *)
Inductive raised : Type :=
| ServiceError (e : exn)
    (* raised by the service *)
| LibraryError (msg : string)
    (* raised by pydantic or a builtin *)
| HTTPException (status_code : nat) (detail : detail)
with detail : Type :=
| Literal (text : string)
| Formatted (prefix : string) (cause : raised).
    (* f"{prefix}{str(e)}" *)

Definition HTTP_500_INTERNAL_SERVER_ERROR : nat := 500.
Definition HTTP_503_SERVICE_UNAVAILABLE : nat := 503.

(** [d[key]] on the items of a dictionary, the last binding of a key
    being the one the dictionary holds. *)
Fixpoint item (key : string) (items : list (string * value)) : option value :=
  match items with
  | [] => None
  | (k, v) :: rest =>
      match item key rest with
      | Some v' => Some v'
      | None => if String.eqb k key then Some v else None
      end
  end.

(** [isinstance(result, dict) and key in result] *)
Definition is_dict_with (key : string) (result : payload) : bool :=
  match result with
  | Structured (VDict items) => bool_decide (is_Some (item key items))
  | _ => false
  end.

(** [result.get(key, default)] on a result that is a dictionary *)
Definition get (key : string) (default : value) (result : payload) : value :=
  match result with
  | Structured (VDict items) => from_option id default (item key items)
  | _ => default
  end.

(** The response of the [else] branch of [analyse_website]. *)
Definition fallback_analysis : value :=
  VDict
    [("strengths",
      VList [VStr "Professional website design"; VStr "Clear product catalog"]);
     ("weaknesses",
      VList [VStr "Limited analysis available"; VStr "API integration needed"]);
     ("improvement_suggestions",
      VList [VStr "Add customer reviews"; VStr "Improve SEO optimization"]);
     ("product_positioning",
      VStr "Products appear to target quality-conscious consumers")].

Definition suggestion (platform : string) (score : Q) (rationale : string)
    (estimated_reach : Z) (cost_effectiveness : string) : value :=
  VDict [("platform", VStr platform); ("score", VFloat score);
         ("rationale", VStr rationale); ("estimated_reach", VInt estimated_reach);
         ("cost_effectiveness", VStr cost_effectiveness)].

(** The response of the [else] branch of [get_platform_suggestions]. *)
Definition fallback_suggestions : value :=
  VDict
    [("suggestions",
      VList
        [suggestion "Meta" 90 "Excellent visual ad formats and precise targeting"
           2500000 "high";
         suggestion "Google" 85 "High-intent search traffic and shopping ads"
           1800000 "high";
         suggestion "TikTok" 75 "Great for reaching younger demographics"
           1200000 "medium"])].

Section Handlers.
(** The environment of the service, as in [Controller]. *)
Variable generate_content : Z -> string -> response.
Variable random_uniform : Z -> Q.
Variable json_loads : string -> loaded.

(** [WebsiteAnalysisResponse(strengths=.., weaknesses=..,
    improvement_suggestions=.., product_positioning=..)] *)
Variable WebsiteAnalysisResponse : value -> value -> value -> value -> value + string.
(** [PlatformSuggestionsResponse(suggestions=..)] *)
Variable PlatformSuggestionsResponse : value -> value + string.
(** The prompt [analyse_website] formats from [request.site_data]. *)
Variable analysis_prompt : string + string.
(** Lines 109-117 of [campaign.py], on [campaign_result]: the three
    [AdVariation] and [UntappedInterest] constructions of the inner [try];
    [None] when one of them raises. *)
Variable parse_campaign : payload -> option value.
(** Lines 125-150 of [campaign.py]: [CampaignDraft] and
    [CampaignGenerationResponse] from the parsed parts. *)
Variable CampaignGenerationResponse : value -> payload -> value + string.
(** Lines 153-184 of [campaign.py]: the fallback campaign of the request. *)
Variable fallback_campaign : value + string.

(** The module-level [call_gemini(prompt, config=.., structured_output=True)] *)
Definition call (self : GeminiService) : result payload * loop_state :=
  call_gemini generate_content random_uniform json_loads true 3 self.

(** What a constructor gives, as seen by the enclosing [try]. *)
Definition constructed (r : value + string) : value + raised :=
  match r with
  | inl v => inl v
  | inr msg => inr (LibraryError msg)
  end.

(** [except Exception as e: raise HTTPException(500, f"{prefix}{str(e)}")] *)
Definition answer_500 (prefix : string) (r : value + raised) : value + raised :=
  match r with
  | inl v => inl v
  | inr e => inr (HTTPException HTTP_500_INTERNAL_SERVER_ERROR (Formatted prefix e))
  end.

Definition analyse_website (self : GeminiService) : (value + raised) * GeminiService :=
  match analysis_prompt with
  | inr msg =>
      (answer_500 "Website analysis failed: " (inr (LibraryError msg)), self)
  | inl prompt =>
      let '(r, st) := call self in
      let body :=
        match r with
        | Raise e => inr (ServiceError e)
        | Ret analysis_result =>
            if is_dict_with "strengths" analysis_result then
              constructed
                (WebsiteAnalysisResponse
                   (get "strengths" (VList []) analysis_result)
                   (get "weaknesses" (VList []) analysis_result)
                   (get "improvement_suggestions" (VList []) analysis_result)
                   (get "product_positioning" (VStr EmptyString) analysis_result))
            else inl fallback_analysis
        end in
      (answer_500 "Website analysis failed: " body, svc st)
  end.

Definition get_platform_suggestions (self : GeminiService)
  : (value + raised) * GeminiService :=
  let '(r, st) := call self in
  let body :=
    match r with
    | Raise e => inr (ServiceError e)
    | Ret suggestions_result =>
        if is_dict_with "suggestions" suggestions_result then
          (* [suggestions_result["suggestions"]], the key being there *)
          constructed
            (PlatformSuggestionsResponse
               (get "suggestions" VNone suggestions_result))
        else inl fallback_suggestions
    end in
  (answer_500 "Platform suggestions failed: " body, svc st).

Definition generate_campaign (self : GeminiService)
  : (value + raised) * GeminiService :=
  let '(r, st) := call self in
  let body :=
    match r with
    | Raise e =>
        (* the inner [except Exception] around the call *)
        inr (HTTPException HTTP_503_SERVICE_UNAVAILABLE
               (Literal "AI service temporarily unavailable"))
    | Ret campaign_result =>
        if is_dict_with "primary_copy" campaign_result then
          match parse_campaign campaign_result with
          | None =>
              inr (HTTPException HTTP_500_INTERNAL_SERVER_ERROR
                     (Literal "Failed to parse AI response"))
          | Some parts =>
              constructed (CampaignGenerationResponse parts campaign_result)
          end
        else constructed fallback_campaign
    end in
  (answer_500 "Campaign generation failed: " body, svc st).
End Handlers.

End Routers.

(** ** Concrete services and environments used in the examples *)

Module Samples.
Import Pool Controller.

(** Two environment variables holding the same key. *)
Definition twin_env (name : string) : option string :=
  if String.eqb name "GEMINI_API_KEY_1" || String.eqb name "GEMINI_API_KEY_2"
  then Some "k" else None.

(** Three distinct keys, the fourth variable unset. *)
Definition three_env (name : string) : option string :=
  if String.eqb name "GEMINI_API_KEY_1" then Some "alpha"
  else if String.eqb name "GEMINI_API_KEY_2" then Some "beta"
  else if String.eqb name "GEMINI_API_KEY_3" then Some "gamma"
  else None.

(** Nothing set, or set to the empty string. *)
Definition bare_env (name : string) : option string :=
  if String.eqb name "GEMINI_API_KEY_2" then Some EmptyString else None.

Definition three_keys : GeminiService :=
  mkService ["alpha"; "beta"; "gamma"] 0 ∅ ∅.

(** A service object whose credential list is empty. *)
Definition keyless : GeminiService := mkService [] 0 ∅ ∅.

Definition all_failed : GeminiService :=
  mkService ["alpha"; "beta"; "gamma"] 1 ∅ {[0; 1; 2]}.

(** The twin service after one selection: the cursor is on index 1. *)
Definition twins : GeminiService :=
  (_get_next_api_key (mkService ["k"; "k"] 0 ∅ ∅)).2.

Definition always_unavailable (attempt : Z) (api_key : string) : response :=
  Failure "503 service unavailable".

Definition always_quota (attempt : Z) (api_key : string) : response :=
  Failure "429 Resource exhausted: quota exceeded".


(** Three spaces and nothing else. *)
Definition always_blank (attempt : Z) (api_key : string) : response :=
  Text "   ".

Definition half (attempt : Z) : Q := 1 # 2.

(** A parser that rejects everything but the text [1]. *)
Definition only_one (s : string) : loaded :=
  if String.eqb s "1" then Loaded (VInt 1) else JSONDecodeError.

Definition rejects (s : string) : loaded := JSONDecodeError.

(** An answer in prose, with no JSON in it. *)
Definition always_prose (attempt : Z) (api_key : string) : response :=
  Text "Sorry, I cannot help with that.".

(** Response models that accept whatever they are given. *)
Definition any_analysis (strengths weaknesses improvement_suggestions
    product_positioning : value) : value + string :=
  inl (VDict [("strengths", strengths); ("weaknesses", weaknesses);
              ("improvement_suggestions", improvement_suggestions);
              ("product_positioning", product_positioning)]).

Definition any_suggestions (suggestions : value) : value + string :=
  inl (VDict [("suggestions", suggestions)]).

Definition any_campaign (parts : value) (campaign_result : payload) : value + string :=
  inl (VDict [("campaign_draft", parts)]).

Definition no_parts (campaign_result : payload) : option value := None.

Definition canned_campaign : value + string :=
  inl (VDict [("campaign_draft", VDict [])]).

Definition some_prompt : string + string := inl "Analyze this e-commerce website".

(** Quota failures up to attempt 1023, another failure from then on. *)
Definition quota_then_unavailable (attempt : Z) (api_key : string) : response :=
  if (attempt <? 1024)%Z then Failure "429 Resource exhausted: quota exceeded"
  else Failure "503 service unavailable".

(** A quota failure on the first attempt, a padded text afterwards. *)
Definition quota_then_text (attempt : Z) (api_key : string) : response :=
  if (attempt =? 0)%Z then Failure "Quota exceeded for this key" else Text " hello ".

(** [depth] opening brackets: the start of that many nested arrays. *)
Definition nested (depth : N) : string := N.iter depth (String "[") EmptyString.

(** A parser that gives up on a text that opens 100000 arrays at once, as
    [json.loads] does with a [RecursionError], and rejects the others. *)
Definition depth_limited (s : string) : loaded :=
  if String.prefix (nested 100000) s
  then OtherError
         "maximum recursion depth exceeded while decoding a JSON array from a unicode string"
  else JSONDecodeError.

(** An answer that opens 100000 arrays. *)
Definition always_nested (attempt : Z) (api_key : string) : response :=
  Text (nested 100000).

(** A parser that accepts the empty object only. *)
Definition only_empty_object (s : string) : loaded :=
  if String.eqb s "{}" then Loaded (VDict []) else JSONDecodeError.

(** A fenced block: the opening marker, a line break, [{}], a line break
    and the closing marker. *)
Definition fenced_object : string :=
  String.append "```json" (String "010" (String.append "{}" (String "010" "```"))).

End Samples.

(** * Properties *)

(** ** The credential pool *)

Module PoolFacts.
Import Pool Runs.

Section Selection.
Variable self : GeminiService.
Let n := length (api_keys self).

Lemma elem_of_unfailed i :
  i ∈ unfailed_indices self ↔ i < n ∧ i ∉ failed_keys self.
Proof.
  unfold unfailed_indices. rewrite list_elem_of_filter, elem_of_seq.
  subst n. intuition lia.
Qed.

Lemma unfailed_nil_iff :
  unfailed_indices self = [] ↔ ∀ i, i < n → i ∈ failed_keys self.
Proof.
  split.
  - intros Hnil i Hi. destruct (decide (i ∈ failed_keys self)) as [|Hni]; [done|].
    assert (i ∈ unfailed_indices self) as Hin by (apply elem_of_unfailed; done).
    rewrite Hnil in Hin. by apply not_elem_of_nil in Hin.
  - intros Hall. destruct (unfailed_indices self) as [|i l] eqn:E; [done|].
    assert (i ∈ unfailed_indices self) as Hin by (rewrite E; left).
    apply elem_of_unfailed in Hin as [Hi Hni]. destruct Hni. by apply Hall.
Qed.

(** After the reset branch, every available index is a position of the
    list that is outside the failed set. *)
Lemma elem_of_available i :
  i ∈ (available self).2 → i < n ∧ i ∉ fst (available self).
Proof.
  unfold available. destruct (unfailed_indices self) as [|j l] eqn:E; simpl.
  - rewrite elem_of_seq. intros ?. split; [subst n; lia|]. apply not_elem_of_empty.
  - rewrite <- E. apply elem_of_unfailed.
Qed.

Lemma available_length_pos : api_keys self ≠ [] → 0 < length (available self).2.
Proof.
  intros Hne. unfold available.
  destruct (unfailed_indices self) as [|j l] eqn:E; simpl; [|lia].
  rewrite length_seq. destruct (api_keys self); [done | simpl; lia].
Qed.

(** The selection raises neither of the two errors its arithmetic and its
    subscript could raise. *)
Lemma selected_index_ok :
  api_keys self ≠ [] →
  ∃ i, selected_index self = Ret i ∧ i ∈ (available self).2.
Proof.
  intros Hne. pose proof (available_length_pos Hne) as Hpos.
  unfold selected_index.
  destruct (length (available self).2) as [|m] eqn:Hlen; [lia|].
  destruct ((available self).2 !! (current_key_index self mod S m)) as [i|] eqn:Hlk.
  - exists i. split; [done|]. by eapply list_elem_of_lookup_2.
  - apply lookup_ge_None in Hlk.
    pose proof (Nat.mod_upper_bound (current_key_index self) (S m)). lia.
Qed.

(** What [_get_next_api_key] returns and how it leaves the service, when
    there is at least one key. *)
Lemma get_next_ok :
  api_keys self ≠ [] →
  ∃ i key,
    selected_index self = Ret i ∧
    api_keys self !! i = Some key ∧
    (i ∉ fst (available self)) ∧
    _get_next_api_key self =
      (Ret (Some key),
       mkService (api_keys self)
         ((current_key_index self + 1) mod length (available self).2)
         (<[i := default 0 (key_usage_count self !! i) + 1]> (key_usage_count self))
         (available self).1).
Proof.
  intros Hne. destruct (selected_index_ok Hne) as (i & Hsel & Hin).
  apply elem_of_available in Hin as [Hlt Hnf].
  destruct (lookup_lt_is_Some_2 (api_keys self) i Hlt) as [key Hkey].
  exists i, key. repeat split; try done.
  unfold _get_next_api_key. destruct (api_keys self) as [|k0 ks] eqn:Hk; [done|].
  destruct (available self) as [failed avail]. simpl in *.
  rewrite Hsel. rewrite <- Hk in *. by rewrite Hkey.
Qed.
End Selection.

Lemma get_next_api_keys self : api_keys (_get_next_api_key self).2 = api_keys self.
Proof.
  unfold _get_next_api_key. destruct (api_keys self) as [|k ks] eqn:E; [done|].
  destruct (available self) as [failed avail].
  destruct (selected_index self) as [i|e]; simpl; [|done].
  by destruct ((k :: ks) !! i).
Qed.

Lemma mark_failed_api_keys self key : api_keys (_mark_key_failed self key) = api_keys self.
Proof. unfold _mark_key_failed. by destruct (index (api_keys self) key). Qed.

Lemma index_Some keys key i :
  index keys key = Some i ↔
  keys !! i = Some key ∧ ∀ j, j < i → keys !! j ≠ Some key.
Proof.
  unfold index. split.
  - intros H. apply fmap_Some in H as ([j k] & Hfind & ->). simpl.
    apply list_find_Some in Hfind as (Hlk & -> & Hfirst). split; [done|].
    intros j' Hj' Hlk'. by eapply Hfirst.
  - intros [Hlk Hfirst]. apply fmap_Some. exists (i, key). split; [|done].
    apply list_find_Some. split_and!; [done..|].
    intros j k Hj Hlt ->. by eapply Hfirst.
Qed.

Lemma index_None keys key : index keys key = None ↔ key ∉ keys.
Proof.
  unfold index. rewrite fmap_None, list_find_None, Forall_forall.
  split; [intros H Hin; by eapply H | intros H k Hin ->; done].
Qed.

(** *** Construction *)

Lemma load_step_keys getenv keys i :
  Forall (λ key, key ≠ EmptyString) keys →
  Forall (λ key, key ≠ EmptyString) (load_step getenv keys i).
Proof.
  intros H. unfold load_step. destruct (getenv (env_name i)) as [[|c k]|]; simpl; try done.
  apply Forall_app. split; [done|]. by apply Forall_singleton.
Qed.

Lemma load_loop_keys getenv idxs keys :
  Forall (λ key, key ≠ EmptyString) keys →
  Forall (λ key, key ≠ EmptyString) (foldl (load_step getenv) keys idxs).
Proof.
  revert keys. induction idxs as [|i idxs IH]; intros keys H; simpl; [done|].
  apply IH. by apply load_step_keys.
Qed.

Lemma load_step_skip getenv keys i :
  truthy (getenv (env_name i)) = false → load_step getenv keys i = keys.
Proof. unfold load_step. by destruct (getenv (env_name i)) as [[|c k]|]. Qed.

Lemma init_well_formed getenv self : __init__ getenv = Ret self → well_formed self.
Proof.
  unfold __init__, _load_api_keys.
  pose proof (load_loop_keys getenv (seq 1 4) [] (Forall_nil_2 _)) as Hall.
  destruct (foldl (load_step getenv) [] (seq 1 4)) as [|k ks] eqn:E; [done|].
  intros [= <-]. split; simpl; done.
Qed.

(** C9. Constructing the service when none of the four environment
    variables holds a non-empty key raises the configuration error
    ([ValueError]) inside [__init__], where no request has been made; and
    whenever construction succeeds the credential list is non-empty (with
    the cursor at 0 and nothing used or failed). *)
Theorem construction_requires_a_key (getenv : string -> option string) :
  ((∀ i, 1 ≤ i ≤ 4 → truthy (getenv (env_name i)) = false) →
   _load_api_keys getenv = Raise (ValueError no_keys_message) ∧
   __init__ getenv = Raise (ValueError no_keys_message)) ∧
  (∀ self, __init__ getenv = Ret self →
   api_keys self ≠ [] ∧ current_key_index self = 0 ∧
   key_usage_count self = ∅ ∧ failed_keys self = ∅).
Proof.
  split.
  - intros Hnone. unfold __init__, _load_api_keys. simpl.
    rewrite !load_step_skip by (apply Hnone; lia). done.
  - intros self Hinit. pose proof (init_well_formed _ _ Hinit) as [Hne _].
    unfold __init__ in Hinit. destruct (_load_api_keys getenv); [|done].
    by injection Hinit as <-.
Qed.

Lemma construction_requires_a_key_witness :
  (∀ i, 1 ≤ i ≤ 4 → truthy (Samples.bare_env (env_name i)) = false) ∧
  __init__ Samples.bare_env = Raise (ValueError no_keys_message) ∧
  __init__ Samples.three_env = Ret Samples.three_keys ∧
  api_keys Samples.three_keys ≠ [].
Proof.
  assert (∀ i, 1 ≤ i ≤ 4 → truthy (Samples.bare_env (env_name i)) = false) as H.
  { intros i Hi.
    assert (i = 1 ∨ i = 2 ∨ i = 3 ∨ i = 4) as [->|[->|[->| ->]]] by lia;
      reflexivity. }
  split; [exact H|].
  split; [exact (proj2 (proj1 (construction_requires_a_key Samples.bare_env) H))|].
  assert (__init__ Samples.three_env = Ret Samples.three_keys) as E by reflexivity.
  split; [exact E|].
  exact (proj1 (proj2 (construction_requires_a_key Samples.three_env) _ E)).
Defined.

(** *** Selection *)

(** C3. On a service with at least one key: the call returns a key (it
    raises nothing and does not return [None]), the chosen index is outside
    the failed set the call leaves behind; when every index was failed that
    set is now empty; and when some index was not failed, the set is left as
    it was and the chosen index was not in it. *)
Theorem select_next_self_heals (self : GeminiService) :
  api_keys self ≠ [] →
  ∃ i key,
    selected_index self = Ret i ∧
    (_get_next_api_key self).1 = Ret (Some key) ∧
    api_keys self !! i = Some key ∧
    (i ∉ failed_keys (_get_next_api_key self).2) ∧
    ((∀ j, j < length (api_keys self) → j ∈ failed_keys self) →
     failed_keys (_get_next_api_key self).2 = ∅) ∧
    ((∃ j, j < length (api_keys self) ∧ j ∉ failed_keys self) →
     failed_keys (_get_next_api_key self).2 = failed_keys self ∧
     i ∉ failed_keys self).
Proof.
  intros Hne. destruct (get_next_ok self Hne) as (i & key & Hsel & Hkey & Hnf & Hnext).
  exists i, key. rewrite Hnext. simpl. split_and!; try done.
  - intros Hall. apply unfailed_nil_iff in Hall. unfold available. by rewrite Hall.
  - intros (j & Hj & Hjf).
    assert (available self = (failed_keys self, unfailed_indices self)) as Hav.
    { unfold available. destruct (unfailed_indices self) eqn:E; [|done].
      exfalso. apply Hjf. by eapply unfailed_nil_iff. }
    rewrite Hav in *. done.
Qed.

Lemma select_next_self_heals_witness :
  api_keys Samples.all_failed ≠ [] ∧
  ∃ i key,
    selected_index Samples.all_failed = Ret i ∧
    (_get_next_api_key Samples.all_failed).1 = Ret (Some key) ∧
    api_keys Samples.all_failed !! i = Some key ∧
    (i ∉ failed_keys (_get_next_api_key Samples.all_failed).2) ∧
    ((∀ j, j < length (api_keys Samples.all_failed) → j ∈ failed_keys Samples.all_failed) →
     failed_keys (_get_next_api_key Samples.all_failed).2 = ∅) ∧
    ((∃ j, j < length (api_keys Samples.all_failed) ∧ j ∉ failed_keys Samples.all_failed) →
     failed_keys (_get_next_api_key Samples.all_failed).2 = failed_keys Samples.all_failed ∧
     i ∉ failed_keys Samples.all_failed).
Proof.
  assert (api_keys Samples.all_failed ≠ []) as H by done.
  split; [exact H|]. exact (select_next_self_heals Samples.all_failed H).
Defined.

(** *** Rotation *)

Lemma mod_shift_inj a n j j' :
  j < n → j' < n → (a + j) mod n = (a + j') mod n → j = j'.
Proof.
  intros Hj Hj' Heq.
  pose proof (Nat.div_mod_eq (a + j) n) as E1.
  pose proof (Nat.div_mod_eq (a + j') n) as E2.
  rewrite Heq in E1.
  destruct (decide ((a + j) / n = (a + j') / n)) as [Hq|Hq]; [rewrite Hq in E1; lia|].
  exfalso. nia.
Qed.

(** One full turn starting anywhere visits every index exactly once. *)
Lemma full_turn_Permutation a n :
  ((λ j, (a + j) mod n) <$> seq 0 n) ≡ₚ seq 0 n.
Proof.
  destruct (decide (n = 0)) as [->|Hn]; [done|].
  apply submseteq_length_Permutation; [|by rewrite length_fmap].
  apply NoDup_submseteq.
  - apply NoDup_fmap_2_strong; [|apply NoDup_seq].
    intros j j' Hj Hj'. apply elem_of_seq in Hj, Hj'.
    apply mod_shift_inj; lia.
  - intros x (j & -> & _)%list_elem_of_fmap. apply elem_of_seq.
    pose proof (Nat.mod_upper_bound (a + j) n Hn). lia.
Qed.

Lemma times_selected_NoDup i (l : list nat) :
  NoDup l → times_selected i l = if decide (i ∈ l) then 1 else 0.
Proof.
  unfold times_selected. induction 1 as [|x l Hx Hl IH]; [done|].
  rewrite filter_cons. destruct (decide (x = i)) as [->|Hne]; simpl.
  - rewrite IH, (decide_False (P := i ∈ l)) by done.
    by rewrite decide_True by left.
  - rewrite IH. destruct (decide (i ∈ l)) as [Hin|Hin].
    + by rewrite decide_True by (by right).
    + rewrite decide_False; [done|]. intros [->|?]%elem_of_cons; done.
Qed.

Lemma times_selected_app i (l k : list nat) :
  times_selected i (l ++ k) = times_selected i l + times_selected i k.
Proof. unfold times_selected. by rewrite filter_app, length_app. Qed.

Lemma times_selected_full_turn a n i :
  i < n → times_selected i ((λ j, (a + j) mod n) <$> seq 0 n) = 1.
Proof.
  intros Hi. pose proof (full_turn_Permutation a n) as Hp.
  rewrite times_selected_NoDup by (rewrite Hp; apply NoDup_seq).
  rewrite decide_True; [done|]. rewrite Hp. apply elem_of_seq. lia.
Qed.

Lemma times_selected_part_turn a n r i :
  r ≤ n → times_selected i ((λ j, (a + j) mod n) <$> seq 0 r) ≤ 1.
Proof.
  intros Hr. rewrite times_selected_NoDup; [case_decide; lia|].
  apply NoDup_fmap_2_strong; [|apply NoDup_seq].
  intros j j' Hj Hj'. apply elem_of_seq in Hj, Hj'.
  apply mod_shift_inj; lia.
Qed.

Lemma shifted_turn a n m :
  ((λ j, (a + j) mod n) <$> seq n m) = ((λ j, (a + j) mod n) <$> seq 0 m).
Proof.
  rewrite <- (Nat.add_0_r n) at 1. rewrite <- fmap_add_seq, <- list_fmap_compose.
  apply list_fmap_ext. intros _ j _. simpl.
  destruct (decide (n = 0)) as [->|Hn]; [done|].
  replace (a + (n + j)) with (a + j + 1 * n) by lia.
  by rewrite Nat.Div0.mod_add.
Qed.

Lemma times_selected_turns a n i q r :
  i < n →
  times_selected i ((λ j, (a + j) mod n) <$> seq 0 (q * n + r)) =
  q + times_selected i ((λ j, (a + j) mod n) <$> seq 0 r).
Proof.
  intros Hi. induction q as [|q IH]; [done|].
  replace (S q * n + r) with (n + (q * n + r)) by lia.
  rewrite seq_app, fmap_app, times_selected_app. simpl.
  rewrite shifted_turn, IH, times_selected_full_turn by done. lia.
Qed.

Section Rotation.
Variable self : GeminiService.
Let n := length (api_keys self).
Hypothesis some_key : api_keys self ≠ [].
Hypothesis none_failed : ∀ i, i < n → i ∉ failed_keys self.

Lemma unfailed_all : unfailed_indices self = seq 0 n.
Proof.
  unfold unfailed_indices. fold n.
  assert (Forall (λ i, i ∉ failed_keys self) (seq 0 n)) as Hall.
  { apply Forall_forall. intros i Hi%elem_of_seq. apply none_failed. lia. }
  induction Hall as [|i l Hi Hl IH]; [done|].
  by rewrite filter_cons_True, IH.
Qed.

Lemma n_pos : 0 < n.
Proof. subst n. destruct (api_keys self); [done | simpl; lia]. Qed.

Lemma available_all : available self = (failed_keys self, seq 0 n).
Proof.
  unfold available. rewrite unfailed_all. pose proof n_pos.
  destruct n as [|m] eqn:E; [lia|]. done.
Qed.

Lemma selected_index_rotation :
  selected_index self = Ret (current_key_index self mod n).
Proof.
  unfold selected_index. rewrite available_all. cbn [snd]. rewrite length_seq.
  pose proof n_pos. destruct n as [|m] eqn:E; [lia|].
  rewrite lookup_seq_lt by (apply Nat.mod_upper_bound; lia). done.
Qed.

Lemma get_next_rotation :
  (_get_next_api_key self).2 =
  mkService (api_keys self) ((current_key_index self + 1) mod n)
    (<[current_key_index self mod n :=
         default 0 (key_usage_count self !! (current_key_index self mod n)) + 1]>
       (key_usage_count self))
    (failed_keys self).
Proof.
  destruct (get_next_ok self some_key) as (i & key & Hsel & _ & _ & ->).
  rewrite selected_index_rotation in Hsel. injection Hsel as <-.
  rewrite available_all. simpl. by rewrite length_seq.
Qed.
End Rotation.

Lemma select_many_rotation m self :
  api_keys self ≠ [] →
  (∀ i, i < length (api_keys self) → i ∉ failed_keys self) →
  select_many m self =
  (λ j, (current_key_index self + j) mod length (api_keys self)) <$> seq 0 m.
Proof.
  revert self. induction m as [|m IH]; intros self Hne Hnf; [done|].
  simpl. rewrite selected_index_rotation, get_next_rotation by done.
  rewrite IH by done. simpl. rewrite Nat.add_0_r. f_equal.
  rewrite <- fmap_S_seq, <- list_fmap_compose.
  apply list_fmap_ext. intros _ j _. simpl.
  rewrite Nat.Div0.add_mod_idemp_l. f_equal. lia.
Qed.

(** C8. On a service with [n >= 1] keys none of which is failed, [M]
    consecutive selections choose every index either [M / n] (floor) or
    [(M + n - 1) / n] (ceiling) times, and any [n] consecutive selections
    among them are a permutation of all [n] indices, so that no index comes
    twice before every other has come once. *)
Theorem rotation_is_fair (self : GeminiService) (M : nat) :
  api_keys self ≠ [] →
  (∀ i, i < length (api_keys self) → i ∉ failed_keys self) →
  length (select_many M self) = M ∧
  (∀ i, i < length (api_keys self) →
     times_selected i (select_many M self) = M / length (api_keys self) ∨
     times_selected i (select_many M self) =
       (M + length (api_keys self) - 1) / length (api_keys self)) ∧
  (∀ k, k + length (api_keys self) ≤ M →
     take (length (api_keys self)) (drop k (select_many M self))
     ≡ₚ seq 0 (length (api_keys self))).
Proof.
  intros Hne Hnf. rewrite select_many_rotation by done.
  set (n := length (api_keys self)) in *. set (c := current_key_index self).
  assert (0 < n) as Hn by (by apply n_pos).
  split_and!.
  - by rewrite length_fmap, length_seq.
  - intros i Hi.
    pose proof (Nat.div_mod_eq M n) as HM.
    pose proof (Nat.mod_upper_bound M n ltac:(lia)) as Hr.
    rewrite HM at 1 3. rewrite (Nat.mul_comm n), times_selected_turns by done.
    destruct (decide (M mod n = 0)) as [H0|H0].
    + left. rewrite H0. simpl. unfold times_selected. simpl. lia.
    + pose proof (times_selected_part_turn c n (M mod n) i ltac:(lia)) as Hle.
      assert ((M + n - 1) / n = M / n + 1) as Hceil.
      { replace (M + n - 1) with ((M mod n - 1) + (M / n + 1) * n) by nia.
        rewrite Nat.div_add by lia. rewrite Nat.div_small by lia. lia. }
      rewrite Hceil.
      destruct (times_selected i ((λ j, (c + j) mod n) <$> seq 0 (M mod n)));
        [left|right]; lia.
  - intros k Hk. rewrite <- fmap_drop, <- fmap_take, drop_seq, take_seq. simpl.
    replace (n `min` (M - k)) with n by lia.
    assert (((λ j, (c + j) mod n) <$> seq k n) =
            ((λ j, (c + k + j) mod n) <$> seq 0 n)) as ->;
      [|apply full_turn_Permutation].
    rewrite <- (Nat.add_0_r k) at 1.
    rewrite <- (fmap_add_seq k 0), <- list_fmap_compose.
    apply list_fmap_ext. intros _ j _. simpl. f_equal. lia.
Qed.

Lemma rotation_is_fair_witness :
  api_keys Samples.three_keys ≠ [] ∧
  (∀ i, i < length (api_keys Samples.three_keys) →
        i ∉ failed_keys Samples.three_keys) ∧
  length (select_many 7 Samples.three_keys) = 7 ∧
  (∀ i, i < 3 →
     times_selected i (select_many 7 Samples.three_keys) = 2 ∨
     times_selected i (select_many 7 Samples.three_keys) = 3) ∧
  (∀ k, k + 3 ≤ 7 →
     take 3 (drop k (select_many 7 Samples.three_keys)) ≡ₚ [0; 1; 2]).
Proof.
  assert (api_keys Samples.three_keys ≠ []) as Hne by done.
  assert (∀ i, i < length (api_keys Samples.three_keys) →
               i ∉ failed_keys Samples.three_keys) as Hnf
    by (intros i _; apply not_elem_of_empty).
  split; [exact Hne|]. split; [exact Hnf|].
  exact (rotation_is_fair Samples.three_keys 7 Hne Hnf).
Defined.

End PoolFacts.

(** ** The structured-output extractor *)

Module ExtractorFacts.
Import Extractor Described.

Lemma prefix_char (c : ascii) (s : string) :
  String.prefix (String c EmptyString) s =
  match s with
  | String d _ => Ascii.eqb d c
  | EmptyString => false
  end.
Proof.
  destruct s as [|d s]; simpl; [done|].
  destruct (ascii_dec c d) as [->|Hne].
  - rewrite Ascii.eqb_refl. by destruct s.
  - symmetry. apply Ascii.eqb_neq. congruence.
Qed.

Lemma find_from_char (c : ascii) (s : string) (i : Z) :
  Str.find_from (String c EmptyString) s i =
  match first_index c s with
  | Some k => (i + Z.of_nat k)%Z
  | None => (-1)%Z
  end.
Proof.
  revert i. induction s as [|d s IH]; intros i.
  - reflexivity.
  - cbn [Str.find_from first_index]. rewrite prefix_char.
    destruct (Ascii.eqb d c); [f_equal; lia|].
    rewrite IH. destruct (first_index c s); simpl; lia.
Qed.

Lemma rfind_from_char (c : ascii) (s : string) (i : Z) :
  (0 ≤ i)%Z →
  Str.rfind_from (String c EmptyString) s i =
  match last_index c s with
  | Some k => (i + Z.of_nat k)%Z
  | None => (-1)%Z
  end.
Proof.
  revert i. induction s as [|d s IH]; intros i Hi.
  - reflexivity.
  - cbn [Str.rfind_from last_index]. rewrite prefix_char, IH by lia.
    destruct (last_index c s) as [k|].
    + rewrite (proj2 (Z.leb_le _ _)) by lia. lia.
    + cbn [Z.leb Z.compare]. destruct (Ascii.eqb d c); simpl; lia.
Qed.

Lemma first_index_get c s i : first_index c s = Some i → String.get i s = Some c.
Proof.
  revert i. induction s as [|d s IH]; intros i; simpl; [done|].
  destruct (Ascii.eqb d c) eqn:E.
  - intros [= <-]. apply Ascii.eqb_eq in E. by subst.
  - destruct (first_index c s) as [k|]; simpl; [|done].
    intros [= <-]. by apply IH.
Qed.

Lemma last_index_get c s j : last_index c s = Some j → String.get j s = Some c.
Proof.
  revert j. induction s as [|d s IH]; intros j; simpl; [done|].
  destruct (last_index c s) as [k|].
  - intros [= <-]. by apply IH.
  - destruct (Ascii.eqb d c) eqn:E; [|done].
    intros [= <-]. apply Ascii.eqb_eq in E. by subst.
Qed.

(** The indices computed with [find] and [rfind] select the same text as
    the first opening and the last closing brace. *)
Lemma json_str_brace_span (t : string) : json_str t = brace_span t.
Proof.
  unfold json_str, brace_span, Str.find, Str.rfind.
  rewrite find_from_char, rfind_from_char by done.
  destruct (first_index "{" t) as [i|] eqn:Hi; [|done].
  destruct (last_index "}" t) as [j|] eqn:Hj.
  - assert (i ≠ j) as Hne.
    { intros ->. apply first_index_get in Hi. apply last_index_get in Hj. congruence. }
    destruct (Nat.ltb_spec i j) as [Hlt|Hge].
    + rewrite (proj2 (Z.leb_le _ _)), (proj2 (Z.ltb_lt _ _)) by lia. simpl.
      unfold Str.slice. f_equal; lia.
    + rewrite (proj2 (Z.ltb_ge _ _)) by lia. by rewrite andb_false_r.
  - rewrite (proj2 (Z.ltb_ge _ _)) by lia. by rewrite andb_false_r.
Qed.

Lemma normalize_unfold raw : normalize raw = remove_code_block (Str.strip raw).
Proof. reflexivity. Qed.

Lemma slice_to_len n s : Str.len (Str.slice_to n s) ≤ n.
Proof.
  unfold Str.slice_to, Str.len. revert s. induction n as [|n IH]; intros [|c s]; simpl; try lia.
  specialize (IH s). lia.
Qed.

Lemma slice_to_prefix n s : String.prefix (Str.slice_to n s) s = true.
Proof.
  unfold Str.slice_to. revert s. induction n as [|n IH]; intros [|c s]; simpl; try done.
  destruct (ascii_dec c c); [apply IH | done].
Qed.

(** C5 (as the code has it). The text handed to [json.loads] is the span
    from the first opening to the last closing brace of the normalized text
    when the closing brace comes later, and the whole normalized text
    otherwise; the normalized text is the trimmed input without a leading
    JSON fence marker, without a leading plain marker in what is left after
    that, and without one trailing marker. *)
Theorem extractor_parses_brace_span (json_loads : string → loaded) (raw : string) :
  json_str (remove_code_block (Str.strip raw)) = brace_span (normalize raw) ∧
  _parse_structured_output json_loads raw =
    match json_loads (brace_span (normalize raw)) with
    | Loaded v => inl v
    | JSONDecodeError => inl (diagnostic (normalize raw))
    | OtherError msg => inr msg
    end.
Proof.
  unfold _parse_structured_output. rewrite json_str_brace_span, normalize_unfold. done.
Qed.

(** The two readings of the markers part only where a plain marker follows
    the JSON one. *)
Lemma normalize_exclusive_agrees raw :
  (Str.startswith (Str.strip raw) "```json" = true →
   Str.startswith (Str.slice_from 7 (Str.strip raw)) "```" = false) →
  normalize raw = normalize_exclusive raw.
Proof.
  unfold normalize, normalize_exclusive. intros H.
  destruct (Str.startswith (Str.strip raw) "```json"); [|done].
  by rewrite H.
Qed.

(** C5 as stated fails: after the JSON fence marker has been removed a
    plain marker that follows it is removed as well. *)
Lemma plain_marker_stripped_after_json_marker :
  ¬ (∀ raw, json_str (remove_code_block (Str.strip raw)) =
            brace_span (normalize_exclusive raw)).
Proof. intros H. specialize (H "```json```1"). vm_compute in H. discriminate H. Qed.

(** C6 (as the code has it). When [json.loads] raises a [JSONDecodeError],
    the extractor returns a dictionary with the error marker and the first
    500 characters of the normalized text: at most 500 characters, a prefix
    of the normalized text, and a prefix of the input itself when
    normalizing leaves the input as it is.  When [json.loads] raises another
    exception, the extractor returns nothing: that exception leaves it. *)
Theorem parse_failure_is_returned (json_loads : string → loaded) (raw : string) :
  (json_loads (json_str (normalize raw)) = JSONDecodeError →
   _parse_structured_output json_loads raw =
     inl (VDict [("error", VStr parse_error_marker);
                 ("raw_response", VStr (Str.slice_to 500 (normalize raw)))]) ∧
   Str.len (Str.slice_to 500 (normalize raw)) ≤ 500 ∧
   String.prefix (Str.slice_to 500 (normalize raw)) (normalize raw) = true ∧
   (normalize raw = raw →
    _parse_structured_output json_loads raw =
      inl (VDict [("error", VStr parse_error_marker);
                  ("raw_response", VStr (Str.slice_to 500 raw))]))) ∧
  (∀ msg, json_loads (json_str (normalize raw)) = OtherError msg →
          _parse_structured_output json_loads raw = inr msg).
Proof.
  split.
  - intros Hfail.
    assert (_parse_structured_output json_loads raw = inl (diagnostic (normalize raw)))
      as E.
    { unfold _parse_structured_output. rewrite <- normalize_unfold. by rewrite Hfail. }
    split_and!.
    + exact E.
    + apply slice_to_len.
    + apply slice_to_prefix.
    + intros Hid. rewrite E, Hid. done.
  - intros msg Hother. unfold _parse_structured_output.
    rewrite <- normalize_unfold. by rewrite Hother.
Qed.

Lemma parse_failure_is_returned_witness :
  Samples.rejects (json_str (normalize "not json at all")) = JSONDecodeError ∧
  _parse_structured_output Samples.rejects "not json at all" =
    inl (VDict [("error", VStr "Failed to parse structured output");
                ("raw_response", VStr "not json at all")]).
Proof.
  assert (Samples.rejects (json_str (normalize "not json at all")) = JSONDecodeError)
    as H by reflexivity.
  split; [exact H|].
  exact (proj1 (proj1 (parse_failure_is_returned Samples.rejects "not json at all") H)).
Defined.

(** C6 as stated fails, twice: the copy is cut from the normalized text,
    not from the text the extractor was given; and a failure of
    [json.loads] that is not a [JSONDecodeError], here on 100000 nested
    arrays, is not turned into a dictionary. *)
Lemma parse_failure_not_as_stated :
  ¬ (∀ (json_loads : string → loaded) raw,
       json_loads (json_str (normalize raw)) = JSONDecodeError →
       _parse_structured_output json_loads raw =
         inl (VDict [("error", VStr parse_error_marker);
                     ("raw_response", VStr (Str.slice_to 500 raw))])) ∧
  ¬ (∀ (json_loads : string → loaded) raw,
       (∀ v, json_loads (json_str (normalize raw)) ≠ Loaded v) →
       ∃ returned, _parse_structured_output json_loads raw = inl returned).
Proof.
  split.
  - intros H. specialize (H Samples.rejects "```json nope" eq_refl).
    vm_compute in H. discriminate H.
  - intros H.
    destruct (H Samples.depth_limited (Samples.nested 100000)) as [returned Hret].
    + intros v. vm_compute. discriminate.
    + vm_compute in Hret. discriminate Hret.
Qed.

End ExtractorFacts.

(** ** The request/retry controller *)

Module ControllerFacts.
Import Pool Controller Runs.

Lemma requests_app tr tr' : requests (tr ++ tr') = requests tr ++ requests tr'.
Proof. apply omap_app. Qed.

Lemma sleeps_app tr tr' : sleeps (tr ++ tr') = sleeps tr ++ sleeps tr'.
Proof. apply omap_app. Qed.

Lemma well_formed_keys self self' :
  api_keys self' = api_keys self → well_formed self → well_formed self'.
Proof. unfold well_formed. by intros ->. Qed.


(** *** The float of the delay *)

(** [2 ** attempt] has a float up to attempt 1023. *)
Lemma float_of_power attempt :
  (attempt < 1024)%Z → float_of_int (2 ^ attempt) = Ret (inject_Z (2 ^ attempt)).
Proof.
  intros Hlt. unfold float_of_int.
  assert (0 ≤ 2 ^ attempt)%Z as Hpos by (apply Z.pow_nonneg; lia).
  assert (2 ^ attempt ≤ 2 ^ 1023)%Z as Hle.
  { destruct (Z.le_gt_cases 0 attempt) as [Hnn|Hneg].
    - apply Z.pow_le_mono_r; lia.
    - rewrite (Z.pow_neg_r 2 attempt) by lia. by vm_compute. }
  rewrite Z.abs_eq by exact Hpos.
  rewrite (proj2 (Z.ltb_lt _ _)); [done|].
  eapply Z.le_lt_trans; [exact Hle|]. by vm_compute.
Qed.

(** From attempt 1024 on it has none. *)
Lemma float_of_power_overflow attempt :
  (1024 ≤ attempt)%Z → float_of_int (2 ^ attempt) = Raise OverflowError.
Proof.
  intros Hge. unfold float_of_int.
  assert (0 ≤ 2 ^ attempt)%Z as Hpos by (apply Z.pow_nonneg; lia).
  assert (2 ^ 1024 ≤ 2 ^ attempt)%Z as Hle by (apply Z.pow_le_mono_r; lia).
  rewrite Z.abs_eq by exact Hpos.
  rewrite (proj2 (Z.ltb_ge _ _)); [done|].
  etrans; [|exact Hle]. by vm_compute.
Qed.

Section Attempt.
Variable generate_content : Z → string → response.
Variable random_uniform : Z → Q.
Variable json_loads : string → loaded.
Variable structured_output : bool.
Variable retry_count : Z.

Local Abbreviation try_request := (try_request generate_content json_loads structured_output).
Local Abbreviation handle_error := (handle_error random_uniform retry_count).
Local Abbreviation attempt_body :=
  (attempt_body generate_content random_uniform json_loads structured_output retry_count).
Local Abbreviation run_attempts :=
  (run_attempts generate_content random_uniform json_loads structured_output retry_count).

(** A failure of the upstream answer is a failure of the [try] block. *)
Lemma try_request_failure attempt api_key msg :
  failure_of (generate_content attempt api_key) = Some msg →
  try_request attempt api_key = inr msg.
Proof.
  unfold Controller.try_request, failure_of.
  destruct (generate_content attempt api_key) as [[|c t]|m]; naive_solver.
Qed.

(** The [except] block on a message that is not a quota message. *)
Lemma handle_error_transient attempt api_key msg st :
  is_quota_error msg = false →
  handle_error attempt api_key msg st =
    if (attempt <? retry_count - 1)%Z then
      if (attempt <? 1024)%Z then
        (Continue,
         mkLoop (svc st) (Some msg)
           (trace st ++ [Sleep (inject_Z (2 ^ attempt) + random_uniform attempt)%Q]))
      else (Raised OverflowError, mkLoop (svc st) (Some msg) (trace st))
    else (Break, mkLoop (svc st) (Some msg) (trace st)).
Proof.
  intros Hq. unfold Controller.handle_error. rewrite Hq.
  destruct (attempt <? retry_count - 1)%Z; [|done].
  destruct (Z.ltb_spec attempt 1024) as [Hlt|Hge].
  - by rewrite float_of_power.
  - by rewrite float_of_power_overflow.
Qed.

(** On a well-formed service the iteration obtains a non-empty key, sends
    one request with it and goes on with the outcome of the [try] block. *)
Lemma attempt_body_request attempt st :
  well_formed (svc st) →
  ∃ i key,
    selected_index (svc st) = Ret i ∧
    api_keys (svc st) !! i = Some key ∧
    key ≠ EmptyString ∧
    (i ∉ failed_keys (_get_next_api_key (svc st)).2) ∧
    (_get_next_api_key (svc st)).1 = Ret (Some key) ∧
    attempt_body attempt st =
      let st1 := mkLoop (_get_next_api_key (svc st)).2 (last_error st)
                   (trace st ++ [Request attempt key]) in
      match try_request attempt key with
      | inl v => (Return v, st1)
      | inr msg => handle_error attempt key msg st1
      end.
Proof.
  intros [Hne Hall].
  destruct (PoolFacts.get_next_ok (svc st) Hne) as (i & key & Hsel & Hkey & Hnf & Hnext).
  exists i, key.
  assert (key ≠ EmptyString) as Hk.
  { eapply (proj1 (Forall_forall _ _) Hall). by eapply list_elem_of_lookup_2. }
  unfold Controller.attempt_body. rewrite Hnext. simpl.
  split_and!; try done.
  destruct key; [done|]. done.
Qed.

Lemma handle_error_api_keys attempt api_key msg st :
  api_keys (svc (handle_error attempt api_key msg st).2) = api_keys (svc st).
Proof.
  destruct (is_quota_error msg) eqn:Hq.
  - unfold Controller.handle_error. rewrite Hq. simpl.
    apply PoolFacts.mark_failed_api_keys.
  - rewrite handle_error_transient by done.
    by destruct (attempt <? retry_count - 1)%Z, (attempt <? 1024)%Z.
Qed.

(** The [except] block goes on, ends the loop, or raises the
    [OverflowError] of the delay, the last only on a message that is not a
    quota message, at an attempt from 1024 on that is not the last. *)
Lemma handle_error_flow attempt api_key msg st :
  (handle_error attempt api_key msg st).1 = Continue ∨
  (handle_error attempt api_key msg st).1 = Break ∨
  (handle_error attempt api_key msg st).1 = Raised OverflowError ∧
  (1024 ≤ attempt < retry_count - 1)%Z.
Proof.
  destruct (is_quota_error msg) eqn:Hq.
  - unfold Controller.handle_error. rewrite Hq. by left.
  - rewrite handle_error_transient by done.
    destruct (Z.ltb_spec attempt (retry_count - 1)) as [Hlt|Hge]; [|by right; left].
    destruct (Z.ltb_spec attempt 1024) as [Hlt'|Hge']; [by left|].
    right; right. split; [done|lia].
Qed.

Lemma attempt_body_api_keys attempt st :
  api_keys (svc (attempt_body attempt st).2) = api_keys (svc st).
Proof.
  unfold Controller.attempt_body.
  pose proof (PoolFacts.get_next_api_keys (svc st)) as Hk.
  destruct (_get_next_api_key (svc st)) as [[[[|c key]|]|e] self1]; simpl in *; try done.
  destruct (try_request attempt (String c key)); simpl; [done|].
  by rewrite handle_error_api_keys.
Qed.

Lemma run_attempts_api_keys attempts st :
  api_keys (svc (run_attempts attempts st).2) = api_keys (svc st).
Proof.
  revert st. induction attempts as [|attempt rest IH]; intros st; simpl; [done|].
  pose proof (attempt_body_api_keys attempt st) as Hk.
  destruct (attempt_body attempt st) as [[v|e| |] st']; simpl in *; try done.
  by rewrite IH.
Qed.

(** A well-formed service never takes the branch that raises the
    no-keys error, nor does the selection raise: what an iteration can
    raise is the [OverflowError] of the delay. *)
Lemma attempt_body_raised attempt st e :
  well_formed (svc st) →
  (attempt_body attempt st).1 = Raised e →
  e = OverflowError ∧ (1024 ≤ attempt < retry_count - 1)%Z.
Proof.
  intros Hwf. destruct (attempt_body_request attempt st Hwf) as (i & key & _ & _ & _ & _ & _ & ->).
  simpl. destruct (try_request attempt key) as [v|msg]; simpl; [done|].
  destruct (handle_error_flow attempt key msg
              (mkLoop (_get_next_api_key (svc st)).2 (last_error st)
                 (trace st ++ [Request attempt key]))) as [-> | [-> | [-> Hk]]];
    [done|done|].
  by intros [= <-].
Qed.

Lemma run_attempts_raises attempts st :
  well_formed (svc st) →
  match (run_attempts attempts st).1 with
  | Ret _ => True
  | Raise e =>
      (∃ last, e = ServiceFailed retry_count last) ∨
      e = OverflowError ∧
      ∃ attempt, attempt ∈ attempts ∧ (1024 ≤ attempt < retry_count - 1)%Z
  end.
Proof.
  revert st. induction attempts as [|attempt rest IH]; intros st Hwf; simpl.
  { left. by eexists. }
  pose proof (attempt_body_raised attempt st) as Hraised.
  pose proof (attempt_body_api_keys attempt st) as Hk.
  destruct (attempt_body attempt st) as [[v|e| |] st']; simpl in *.
  - done.
  - destruct (Hraised e Hwf eq_refl) as [-> Hat]. right. split; [done|].
    exists attempt. split; [left|done].
  - assert (well_formed (svc st')) as Hwf' by (by eapply well_formed_keys).
    specialize (IH st' Hwf').
    destruct (run_attempts rest st').1 as [v|e]; [done|].
    destruct IH as [IH|[-> (k & Hin & Hk')]]; [by left|].
    right. split; [done|]. exists k. split; [by right|done].
  - left. by eexists.
Qed.

(** The iteration after a failure that is not a quota failure. *)
Lemma transient_step attempt st key msg :
  well_formed (svc st) →
  (_get_next_api_key (svc st)).1 = Ret (Some key) →
  try_request attempt key = inr msg →
  is_quota_error msg = false →
  attempt_body attempt st =
    if (attempt <? retry_count - 1)%Z
    then
      if (attempt <? 1024)%Z
      then (Continue,
            mkLoop (_get_next_api_key (svc st)).2 (Some msg)
              (trace st ++ [Request attempt key;
                            Sleep (inject_Z (2 ^ attempt) + random_uniform attempt)%Q]))
      else (Raised OverflowError,
            mkLoop (_get_next_api_key (svc st)).2 (Some msg)
              (trace st ++ [Request attempt key]))
    else (Break,
          mkLoop (_get_next_api_key (svc st)).2 (Some msg)
            (trace st ++ [Request attempt key])).
Proof.
  intros Hwf Hkey Htry Hq.
  destruct (attempt_body_request attempt st Hwf) as (i & key' & _ & _ & _ & _ & Hkey' & ->).
  rewrite Hkey in Hkey'. injection Hkey' as <-.
  cbn zeta. rewrite Htry, handle_error_transient by done. simpl.
  destruct (attempt <? retry_count - 1)%Z; [|done].
  destruct (attempt <? 1024)%Z; [|done].
  by rewrite <- app_assoc.
Qed.

(** The iteration after a quota failure. *)
Lemma quota_step attempt st key msg :
  well_formed (svc st) →
  (_get_next_api_key (svc st)).1 = Ret (Some key) →
  try_request attempt key = inr msg →
  is_quota_error msg = true →
  attempt_body attempt st =
    (Continue,
     mkLoop (_mark_key_failed (_get_next_api_key (svc st)).2 key) (Some msg)
       (trace st ++ [Request attempt key])).
Proof.
  intros Hwf Hkey Htry Hq.
  destruct (attempt_body_request attempt st Hwf) as (i & key' & _ & _ & _ & _ & Hkey' & ->).
  rewrite Hkey in Hkey'. injection Hkey' as <-.
  cbn zeta. rewrite Htry. unfold Controller.handle_error. by rewrite Hq.
Qed.




(** *** Marking a key as failed *)

Lemma index_of_selected (keys : list string) i key :
  keys !! i = Some key →
  ∃ j, index keys key = Some j ∧ j ≤ i ∧ (NoDup keys → j = i).
Proof.
  intros Hi. destruct (index keys key) as [j|] eqn:Hj.
  - exists j. apply PoolFacts.index_Some in Hj as [Hlk Hfirst]. split_and!; [done| |].
    + destruct (decide (j ≤ i)) as [|Hgt]; [done|]. destruct (Hfirst i); [lia | done].
    + intros Hnd. by eapply NoDup_lookup.
  - apply PoolFacts.index_None in Hj. destruct Hj. by eapply list_elem_of_lookup_2.
Qed.

Lemma mark_failed_idempotent self api_key :
  _mark_key_failed (_mark_key_failed self api_key) api_key = _mark_key_failed self api_key.
Proof.
  unfold _mark_key_failed at 1. rewrite PoolFacts.mark_failed_api_keys.
  unfold _mark_key_failed. destruct (index (api_keys self) api_key) as [j|]; [|done].
  unfold with_failed. simpl. f_equal.
  by rewrite <- (assoc_L (∪)), (idemp_L (∪) {[j]}).
Qed.

Lemma mark_failed_unknown self api_key :
  api_key ∉ api_keys self → _mark_key_failed self api_key = self.
Proof.
  intros Hnot. unfold _mark_key_failed.
  by rewrite (proj2 (PoolFacts.index_None _ _) Hnot).
Qed.

(** C2 (as the code has it). An attempt whose request fails with a quota
    message marks the first index that holds the value of the selected key,
    which is the selected index itself when the keys are pairwise distinct,
    records no sleep, and the loop goes on with the remaining attempts.
    Marking twice is marking once, and marking a value that is not in the
    list changes nothing. *)
Theorem quota_failure_marks_key attempt st key msg :
  well_formed (svc st) →
  (_get_next_api_key (svc st)).1 = Ret (Some key) →
  generate_content attempt key = Failure msg →
  is_quota_error msg = true →
  let self1 := (_get_next_api_key (svc st)).2 in
  let st' := mkLoop (_mark_key_failed self1 key) (Some msg)
               (trace st ++ [Request attempt key]) in
  attempt_body attempt st = (Continue, st') ∧
  sleeps (trace st') = sleeps (trace st) ∧
  (∀ rest, run_attempts (attempt :: rest) st = run_attempts rest st') ∧
  (∃ j, index (api_keys (svc st)) key = Some j ∧
        failed_keys (svc st') = failed_keys self1 ∪ {[j]} ∧
        ∀ i, selected_index (svc st) = Ret i →
             j ≤ i ∧ (NoDup (api_keys (svc st)) → j = i)) ∧
  (∀ self api_key,
     _mark_key_failed (_mark_key_failed self api_key) api_key =
     _mark_key_failed self api_key) ∧
  (∀ self api_key, api_key ∉ api_keys self → _mark_key_failed self api_key = self).
Proof.
  intros Hwf Hkey Hgen Hq.
  assert (try_request attempt key = inr msg) as Htry
    by (apply try_request_failure; by rewrite Hgen).
  pose proof (quota_step attempt st key msg Hwf Hkey Htry Hq) as Hstep.
  destruct (attempt_body_request attempt st Hwf)
    as (i & key' & Hsel & Hlk & _ & _ & Hkey' & _).
  rewrite Hkey in Hkey'. injection Hkey' as <-.
  destruct (index_of_selected _ _ _ Hlk) as (j & Hj & Hle & Hnd).
  cbn zeta. split_and!.
  - done.
  - simpl. rewrite sleeps_app. simpl. by rewrite app_nil_r.
  - intros rest. cbn [Controller.run_attempts]. by rewrite Hstep.
  - exists j. split_and!; [done| |].
    + simpl. unfold _mark_key_failed.
      by rewrite PoolFacts.get_next_api_keys, Hj.
    + intros i' Hsel'. rewrite Hsel in Hsel'. by injection Hsel' as <-.
  - apply mark_failed_idempotent.
  - apply mark_failed_unknown.
Qed.

(** *** Exhaustion *)

(** An iteration whose request fails sends one request, records the failure
    as the last error, and goes on, or ends the loop on the last attempt,
    or raises the [OverflowError] of the delay. *)
Lemma failing_step attempt st :
  well_formed (svc st) →
  (∀ key, failure_of (generate_content attempt key) ≠ None) →
  ∃ st2 key,
    last_error st2 = failure_of (generate_content attempt key) ∧
    requests (trace st2) = requests (trace st) ++ [(attempt, key)] ∧
    api_keys (svc st2) = api_keys (svc st) ∧
    (attempt_body attempt st = (Continue, st2) ∨
     attempt_body attempt st = (Break, st2) ∧ (retry_count - 1 ≤ attempt)%Z ∨
     attempt_body attempt st = (Raised OverflowError, st2) ∧
     (1024 ≤ attempt < retry_count - 1)%Z).
Proof.
  intros Hwf Hfail.
  destruct (attempt_body_request attempt st Hwf) as (i & key & _ & _ & _ & _ & Hkey & _).
  destruct (failure_of (generate_content attempt key)) as [msg|] eqn:Hmsg;
    [|by destruct (Hfail key)].
  pose proof (try_request_failure _ _ _ Hmsg) as Htry.
  destruct (is_quota_error msg) eqn:Hq.
  - eexists _, key. rewrite (quota_step attempt st key msg Hwf Hkey Htry Hq).
    split_and!; [| | |by left].
    + simpl. by rewrite Hmsg.
    + simpl. by rewrite requests_app.
    + simpl. by rewrite PoolFacts.mark_failed_api_keys, PoolFacts.get_next_api_keys.
  - rewrite (transient_step attempt st key msg Hwf Hkey Htry Hq).
    destruct (Z.ltb_spec attempt (retry_count - 1)) as [Hlt|Hge];
      [destruct (Z.ltb_spec attempt 1024) as [Hlt'|Hge']|].
    + eexists _, key. split_and!; [| | |by left].
      * simpl. by rewrite Hmsg.
      * simpl. by rewrite requests_app.
      * simpl. by rewrite PoolFacts.get_next_api_keys.
    + eexists _, key. split_and!; [| | |right; right; split; [done|lia]].
      * simpl. by rewrite Hmsg.
      * simpl. by rewrite requests_app.
      * simpl. by rewrite PoolFacts.get_next_api_keys.
    + eexists _, key. split_and!; [| | |by right; left].
      * simpl. by rewrite Hmsg.
      * simpl. by rewrite requests_app.
      * simpl. by rewrite PoolFacts.get_next_api_keys.
Qed.

(** The loop when every attempt fails: either all the attempts are made
    and the terminal failure is raised, or a delay that has no float ends
    the call at an attempt from 1024 on. *)
Lemma run_attempts_all_fail_cases n : ∀ a st,
  well_formed (svc st) →
  (a + Z.of_nat n = retry_count)%Z →
  (∀ k key, (a ≤ k < retry_count)%Z → failure_of (generate_content k key) ≠ None) →
  ∃ st',
    (run_attempts (seqZ a (Z.of_nat n)) st =
       (Raise (ServiceFailed retry_count (last_error st')), st') ∧
     (requests (trace st')).*1 = (requests (trace st)).*1 ++ seqZ a (Z.of_nat n) ∧
     (n = 0 → st' = st) ∧
     (0 < n →
      ∃ key, last (requests (trace st')) = Some ((retry_count - 1)%Z, key) ∧
             last_error st' = failure_of (generate_content (retry_count - 1) key)))
    ∨
    (∃ k, (a ≤ k)%Z ∧ (1024 ≤ k < retry_count - 1)%Z ∧
          run_attempts (seqZ a (Z.of_nat n)) st = (Raise OverflowError, st') ∧
          (requests (trace st')).*1 = (requests (trace st)).*1 ++ seqZ a (k - a + 1)).
Proof.
  induction n as [|n IH]; intros a st Hwf Ha Hfail.
  - exists st. left. rewrite seqZ_nil by done. simpl. rewrite app_nil_r.
    split_and!; [done..|lia].
  - rewrite seqZ_cons by lia.
    replace (Z.pred (Z.of_nat (S n))) with (Z.of_nat n) by lia.
    destruct (failing_step a st Hwf) as (st2 & key & Hlast & Hreq & Hkeys & Hflow).
    { intros key. apply Hfail. lia. }
    assert (n = 0 → last (requests (trace st2)) = Some ((retry_count - 1)%Z, key) ∧
                    last_error st2 = failure_of (generate_content (retry_count - 1) key))
      as Hend.
    { intros ->. rewrite Hreq, last_snoc. replace (retry_count - 1)%Z with a by lia. done. }
    cbn [Controller.run_attempts]. destruct Hflow as [-> | [[-> Hge] | [-> Hover]]].
    + destruct (IH (Z.succ a) st2) as (st' & [(Hrun & Hreqs & Hzero & Hpos)
                                            | (k & Hak & Hk & Hrun & Hreqs)]).
      { by eapply well_formed_keys. }
      { lia. }
      { intros k key' Hk. apply Hfail. lia. }
      * exists st'. left. rewrite Hrun. split_and!; [done| |done|].
        -- rewrite Hreqs, Hreq, fmap_app, <- app_assoc. done.
        -- intros _. destruct n as [|n]; [|apply Hpos; lia].
           rewrite (Hzero eq_refl). exists key. by apply Hend.
      * exists st'. right. exists k. split_and!; [lia|lia|lia|done|].
        rewrite Hreqs, Hreq, fmap_app, <- app_assoc. simpl. f_equal.
        rewrite (seqZ_cons a (k - a + 1)) by lia. do 2 f_equal. lia.
    + assert (n = 0) as -> by lia.
      exists st2. left. split_and!; [done| |done|].
      * rewrite Hreq, fmap_app. by rewrite seqZ_nil by done.
      * intros _. exists key. by apply Hend.
    + exists st2. right. exists a. split_and!; [lia|lia|lia|done|].
      rewrite Hreq, fmap_app. by replace (a - a + 1)%Z with 1%Z by lia.
Qed.

(** With at most 1025 attempts every delay has a float: all the attempts
    are made and the terminal failure is raised. *)
Lemma run_attempts_all_fail n : ∀ a st,
  well_formed (svc st) →
  (a + Z.of_nat n = retry_count)%Z →
  (retry_count ≤ 1025)%Z →
  (∀ k key, (a ≤ k < retry_count)%Z → failure_of (generate_content k key) ≠ None) →
  ∃ st',
    run_attempts (seqZ a (Z.of_nat n)) st =
      (Raise (ServiceFailed retry_count (last_error st')), st') ∧
    (requests (trace st')).*1 = (requests (trace st)).*1 ++ seqZ a (Z.of_nat n) ∧
    (n = 0 → st' = st) ∧
    (0 < n →
     ∃ key, last (requests (trace st')) = Some ((retry_count - 1)%Z, key) ∧
            last_error st' = failure_of (generate_content (retry_count - 1) key)).
Proof.
  intros a st Hwf Ha Hrc Hfail.
  destruct (run_attempts_all_fail_cases n a st Hwf Ha Hfail)
    as (st' & [Hall | (k & _ & Hk & _)]); [|lia].
  by exists st'.
Qed.


End Attempt.

Lemma twins_reachable : reachable Samples.twin_env Samples.twins.
Proof. apply reach_next. by apply reach_init. Qed.

Lemma quota_failure_marks_key_witness :
  well_formed (svc (mkLoop Samples.three_keys None [])) ∧
  (_get_next_api_key Samples.three_keys).1 = Ret (Some "alpha") ∧
  Samples.always_quota 0 "alpha" = Failure "429 Resource exhausted: quota exceeded" ∧
  is_quota_error "429 Resource exhausted: quota exceeded" = true ∧
  (attempt_body Samples.always_quota Samples.half Samples.rejects false 3 0
     (mkLoop Samples.three_keys None [])).1 = Continue.
Proof.
  assert (well_formed (svc (mkLoop Samples.three_keys None []))) as Hwf.
  { split; [done|]. simpl. repeat constructor; done. }
  split_and!; [exact Hwf | reflexivity | reflexivity | reflexivity |].
  rewrite (proj1 (quota_failure_marks_key Samples.always_quota Samples.half
                    Samples.rejects false 3 0 (mkLoop Samples.three_keys None [])
                    "alpha" "429 Resource exhausted: quota exceeded"
                    Hwf eq_refl eq_refl eq_refl)).
  reflexivity.
Defined.

(** C2 as stated fails: with the same key under two indices, the index
    that was selected stays outside the failed set after a quota failure. *)
Lemma quota_failure_may_miss_selected_index :
  ¬ (∀ generate_content random_uniform json_loads structured_output retry_count
       attempt st i key msg,
       well_formed (svc st) →
       selected_index (svc st) = Ret i →
       (_get_next_api_key (svc st)).1 = Ret (Some key) →
       generate_content attempt key = Failure msg →
       is_quota_error msg = true →
       i ∈ failed_keys
             (svc (attempt_body generate_content random_uniform json_loads
                     structured_output retry_count attempt st).2)).
Proof.
  intros H.
  specialize (H Samples.always_quota Samples.half Samples.rejects false 3%Z 0%Z
                (mkLoop Samples.twins None []) 1 "k"
                "429 Resource exhausted: quota exceeded").
  assert (well_formed (svc (mkLoop Samples.twins None []))) as Hwf.
  { split; [done|]. simpl. repeat constructor; done. }
  specialize (H Hwf eq_refl eq_refl eq_refl eq_refl).
  vm_compute in H. set_solver.
Qed.

Lemma three_keys_well_formed : well_formed Samples.three_keys.
Proof. split; [done|]. simpl. repeat constructor; done. Qed.







(** *** The no-keys branch *)

Lemma reachable_keys getenv self :
  reachable getenv self →
  ∃ self0, __init__ getenv = Ret self0 ∧ api_keys self = api_keys self0.
Proof.
  induction 1 as [self Hinit|self _ IH|self key _ IH|self g r j so rc _ IH].
  - by exists self.
  - destruct IH as (self0 & ? & ?). exists self0.
    by rewrite PoolFacts.get_next_api_keys.
  - destruct IH as (self0 & ? & ?). exists self0.
    by rewrite PoolFacts.mark_failed_api_keys.
  - destruct IH as (self0 & ? & ?). exists self0.
    unfold call_gemini. by rewrite run_attempts_api_keys.
Qed.

Lemma reachable_well_formed getenv self : reachable getenv self → well_formed self.
Proof.
  intros (self0 & Hinit & Hkeys)%reachable_keys.
  eapply well_formed_keys; [done|]. by eapply PoolFacts.init_well_formed.
Qed.

(** What a call on a well-formed service can raise. *)
Lemma call_gemini_raises generate_content random_uniform json_loads structured_output
    retry_count self e :
  well_formed self →
  (call_gemini generate_content random_uniform json_loads structured_output
     retry_count self).1 = Raise e →
  (∃ last, e = ServiceFailed retry_count last) ∨
  e = OverflowError ∧ (1026 ≤ retry_count)%Z.
Proof.
  intros Hwf Hcall. unfold call_gemini in Hcall.
  pose proof (run_attempts_raises generate_content random_uniform json_loads
                structured_output retry_count (range retry_count)
                (mkLoop self None []) Hwf) as Hraises.
  rewrite Hcall in Hraises.
  destruct Hraises as [Hfailed | [-> (k & _ & Hk)]]; [by left|].
  right. split; [done|lia].
Qed.

(** C10. In every state a constructed service can reach, the credential
    list is the one loaded at construction, [_get_next_api_key] returns a
    non-empty key (never [None], and it raises nothing), and [call_gemini]
    never raises the no-keys error of its loop, so that a missing credential
    can only show as the [ValueError] of the construction: what the call
    raises is the terminal failure or, only with 1026 attempts or more, the
    [OverflowError] of a delay. *)
Theorem no_keys_error_is_unreachable getenv self :
  reachable getenv self →
  (∃ self0, __init__ getenv = Ret self0 ∧ api_keys self = api_keys self0) ∧
  (∃ key, (_get_next_api_key self).1 = Ret (Some key) ∧ key ≠ EmptyString) ∧
  (∀ generate_content random_uniform json_loads structured_output retry_count,
     match (call_gemini generate_content random_uniform json_loads
              structured_output retry_count self).1 with
     | Ret _ => True
     | Raise e =>
         e ≠ NoAvailableKeys ∧
         ((∃ last, e = ServiceFailed retry_count last) ∨
          e = OverflowError ∧ (1026 ≤ retry_count)%Z)
     end).
Proof.
  intros Hreach. pose proof (reachable_well_formed _ _ Hreach) as Hwf.
  split_and!.
  - by apply reachable_keys.
  - destruct (attempt_body_request (λ _ _, Text EmptyString) (λ _, 0%Q)
                (λ _, JSONDecodeError) false 0 0
                (mkLoop self None []) Hwf) as (i & key & _ & _ & Hne & _ & Hkey & _).
    by exists key.
  - intros g r j so rc.
    pose proof (call_gemini_raises g r j so rc self) as Hraises.
    destruct (call_gemini g r j so rc self).1 as [v|e]; [done|].
    destruct (Hraises e Hwf eq_refl) as [[last ->] | [-> Hrc]].
    + split; [done|]. left. by eexists.
    + split; [done|]. by right.
Qed.

Lemma no_keys_error_is_unreachable_witness :
  reachable Samples.twin_env Samples.twins ∧
  (∃ self0, __init__ Samples.twin_env = Ret self0 ∧
            api_keys Samples.twins = api_keys self0) ∧
  (∃ key, (_get_next_api_key Samples.twins).1 = Ret (Some key) ∧ key ≠ EmptyString) ∧
  (∀ generate_content random_uniform json_loads structured_output retry_count,
     match (call_gemini generate_content random_uniform json_loads
              structured_output retry_count Samples.twins).1 with
     | Ret _ => True
     | Raise e =>
         e ≠ NoAvailableKeys ∧
         ((∃ last, e = ServiceFailed retry_count last) ∨
          e = OverflowError ∧ (1026 ≤ retry_count)%Z)
     end).
Proof.
  split; [exact twins_reachable|].
  exact (no_keys_error_is_unreachable Samples.twin_env Samples.twins twins_reachable).
Defined.

End ControllerFacts.

(** ** Runs on concrete inputs *)

Module Runs_examples.
Import Pool Controller Extractor.

(** A quota failure on [alpha] marks index 0; the next attempt follows
    without a sleep, on the key the cursor now points at, and its text is
    trimmed and returned. *)
Example call_rotates_after_quota :
  call_gemini Samples.quota_then_text Samples.half Samples.rejects false 3
    Samples.three_keys =
  (Ret (Raw "hello"),
   mkLoop (mkService ["alpha"; "beta"; "gamma"] 0 {[0 := 1; 2 := 1]} {[0]})
     (Some "Quota exceeded for this key")
     [Request 0 "alpha"; Request 1 "gamma"]).
Proof. vm_compute. reflexivity. Qed.

(** Three failures that are not quota failures: two sleeps, of [2^0] and
    [2^1] plus the draw, and none after the last attempt. *)
Example call_backs_off_twice :
  (call_gemini Samples.always_unavailable Samples.half Samples.rejects false 3
     Samples.three_keys).2.(trace) =
  [Request 0 "alpha"; Sleep (inject_Z (2 ^ 0) + (1 # 2))%Q;
   Request 1 "beta"; Sleep (inject_Z (2 ^ 1) + (1 # 2))%Q;
   Request 2 "gamma"].
Proof. reflexivity. Qed.

Example extract_fenced_object :
  _parse_structured_output Samples.only_empty_object Samples.fenced_object =
  inl (VDict []).
Proof. reflexivity. Qed.

Example extract_object_in_prose :
  _parse_structured_output Samples.only_empty_object "Here is the result: {} - done"
  = inl (VDict []).
Proof. reflexivity. Qed.

(** A plain marker right after the JSON marker goes as well. *)
Example extract_after_two_markers :
  _parse_structured_output Samples.only_one "```json```1" = inl (VInt 1).
Proof. reflexivity. Qed.

Example extract_not_json :
  _parse_structured_output Samples.only_empty_object "  not json at all  " =
  inl (VDict [("error", VStr "Failed to parse structured output");
              ("raw_response", VStr "not json at all")]).
Proof. reflexivity. Qed.

(** A text that nests too deep for [json.loads] leaves the extractor as
    the exception it is, and the attempt that read it is a failed one: the
    next attempt is made, after the sleep. *)
Example deep_text_fails_the_attempt :
  (call_gemini Samples.always_nested Samples.half
     Samples.depth_limited true 2 Samples.three_keys).2.(trace) =
  [Request 0 "alpha"; Sleep (inject_Z (2 ^ 0) + (1 # 2))%Q; Request 1 "beta"].
Proof. vm_compute. reflexivity. Qed.

(** A failure that is not a quota failure at attempt 1024 of 1026: the
    delay has no float, the call ends there. *)
Example delay_without_float :
  (call_gemini Samples.quota_then_unavailable Samples.half Samples.rejects false 1026
     Samples.three_keys).1 = Raise OverflowError.
Proof. vm_compute. reflexivity. Qed.

Example quota_markers :
  is_quota_error "HTTP 429 Too Many Requests" = true ∧
  is_quota_error "Rate Limit reached" = true ∧
  is_quota_error "QUOTA exhausted" = true ∧
  is_quota_error "503 service unavailable" = false.
Proof. repeat split. Qed.

End Runs_examples.

(** ** More on the credential pool *)

Module PoolInvariants.
Import Pool Runs.

(** *** Usage counters *)

Lemma total_usage_insert (m : gmap nat nat) i :
  map_fold (λ _ count acc, count + acc) 0 (<[i := default 0 (m !! i) + 1]> m) =
  S (map_fold (λ _ count acc, count + acc) 0 m).
Proof.
  destruct (m !! i) as [v|] eqn:Hi; simpl.
  - rewrite <- (insert_delete_id m i v) at 2 by done.
    rewrite <- (insert_delete_eq m).
    rewrite !(map_fold_insert_L (λ _ count acc, count + acc));
      [lia | intros; lia | apply lookup_delete_eq | intros; lia | apply lookup_delete_eq].
  - rewrite map_fold_insert_L; [lia | intros; lia | done].
Qed.

Lemma get_next_usage self i :
  api_keys self ≠ [] →
  ∃ j, selected_index self = Ret j ∧
       usage (_get_next_api_key self).2 i =
         usage self i + (if decide (j = i) then 1 else 0) ∧
       total_usage (_get_next_api_key self).2 = S (total_usage self).
Proof.
  intros Hne. destruct (PoolFacts.get_next_ok self Hne) as (j & key & Hsel & _ & _ & ->).
  exists j. split; [done|]. unfold usage, total_usage. simpl. split.
  - destruct (decide (j = i)) as [->|Hji].
    + rewrite lookup_insert_eq. simpl. lia.
    + rewrite lookup_insert_ne by done. lia.
  - apply total_usage_insert.
Qed.

(** X1. On a service with at least one key, [m] consecutive selections all
    succeed, the usage counter of every index grows by the number of times
    the index was chosen, and the counters together grow by [m]. *)
Theorem usage_counts_every_selection m self i :
  api_keys self ≠ [] →
  length (select_many m self) = m ∧
  usage (after_selections m self) i =
    usage self i + times_selected i (select_many m self) ∧
  total_usage (after_selections m self) = total_usage self + m.
Proof.
  revert self. induction m as [|m IH]; intros self Hne.
  - unfold times_selected. simpl. split_and!; [done | lia | lia].
  - destruct (get_next_usage self i Hne) as (j & Hsel & Hi & Htotal).
    destruct (IH (_get_next_api_key self).2) as (Hlen & Husage & Hsum).
    { by rewrite PoolFacts.get_next_api_keys. }
    cbn [select_many after_selections]. rewrite Hsel.
    split_and!.
    + simpl. by rewrite Hlen.
    + rewrite Husage, Hi. unfold times_selected. rewrite filter_cons.
      destruct (decide (j = i)); simpl; lia.
    + rewrite Hsum, Htotal. lia.
Qed.

Lemma usage_counts_every_selection_witness :
  api_keys Samples.all_failed ≠ [] ∧
  length (select_many 5 Samples.all_failed) = 5 ∧
  usage (after_selections 5 Samples.all_failed) 2 =
    usage Samples.all_failed 2 + times_selected 2 (select_many 5 Samples.all_failed) ∧
  total_usage (after_selections 5 Samples.all_failed) =
    total_usage Samples.all_failed + 5.
Proof.
  assert (api_keys Samples.all_failed ≠ []) as Hne by done.
  split; [exact Hne|].
  exact (usage_counts_every_selection 5 Samples.all_failed 2 Hne).
Defined.

(** *** Positions stay in range *)

Lemma available_length_le self : length (available self).2 ≤ length (api_keys self).
Proof.
  unfold available. destruct (unfailed_indices self) as [|j l] eqn:E; cbn [snd].
  - by rewrite length_seq.
  - rewrite <- E. unfold unfailed_indices.
    etrans; [apply length_filter|]. by rewrite length_seq.
Qed.

Lemma get_next_in_range self : in_range self → in_range (_get_next_api_key self).2.
Proof.
  intros (Hcur & Hfailed & Husage).
  assert (api_keys self ≠ []) as Hne by (destruct (api_keys self); simpl in *; [lia|done]).
  destruct (PoolFacts.get_next_ok self Hne) as (i & key & Hsel & Hkey & _ & ->).
  pose proof (PoolFacts.available_length_pos self Hne) as Hpos.
  pose proof (available_length_le self) as Hle.
  apply lookup_lt_Some in Hkey.
  split_and!; simpl.
  - pose proof (Nat.mod_upper_bound (current_key_index self + 1)
                  (length (available self).2)). lia.
  - unfold available. destruct (unfailed_indices self); simpl; [|done].
    intros j Hj. by apply not_elem_of_empty in Hj.
  - intros j Hj. destruct (decide (i = j)) as [<-|Hne']; [done|].
    rewrite lookup_insert_ne in Hj by done. by apply Husage.
Qed.

Lemma mark_failed_in_range self api_key :
  in_range self → in_range (_mark_key_failed self api_key).
Proof.
  intros (Hcur & Hfailed & Husage). unfold _mark_key_failed.
  destruct (index (api_keys self) api_key) as [j|] eqn:Hj; [|done].
  apply PoolFacts.index_Some in Hj as [Hj%lookup_lt_Some _].
  split_and!; simpl; [done| |done].
  intros i [Hi | ->%elem_of_singleton]%elem_of_union; [by apply Hfailed | done].
Qed.

(** What the loop does to the service is a selection, or a selection and a
    mark, per attempt; so it keeps what both keep. *)
Lemma run_attempts_preserves (P : GeminiService → Prop)
    generate_content random_uniform json_loads structured_output retry_count :
  (∀ self, P self → P (_get_next_api_key self).2) →
  (∀ self api_key, P self → P (_mark_key_failed self api_key)) →
  ∀ attempts st,
    P (Controller.svc st) →
    P (Controller.svc
         (Controller.run_attempts generate_content random_uniform json_loads
            structured_output retry_count attempts st).2).
Proof.
  intros Hnext Hmark.
  assert (∀ attempt st, P (Controller.svc st) →
            P (Controller.svc
                 (Controller.attempt_body generate_content random_uniform json_loads
                    structured_output retry_count attempt st).2)) as Hbody.
  { intros attempt st HP. unfold Controller.attempt_body.
    specialize (Hnext _ HP).
    destruct (_get_next_api_key (Controller.svc st)) as [[[[|c key]|]|e] self1];
      simpl in *; try done.
    destruct (Controller.try_request _ _ _ _ _); simpl; [done|].
    unfold Controller.handle_error.
    destruct (Controller.is_quota_error _); simpl; [by apply Hmark|].
    destruct (_ <? _)%Z; [|done]. by destruct (Controller.float_of_int _). }
  induction attempts as [|attempt rest IH]; intros st HP; simpl; [done|].
  specialize (Hbody attempt st HP).
  destruct (Controller.attempt_body _ _ _ _ _ _ _) as [[v|e| |] st']; simpl in *; auto.
Qed.

(** X2. In every state a constructed service can reach, the cursor is a
    position of the credential list, every failed index is one, and every
    index with a usage counter is one. *)
Theorem reachable_in_range getenv self : reachable getenv self → in_range self.
Proof.
  induction 1 as [self Hinit|self _ IH|self key _ IH|self g r j so rc _ IH].
  - pose proof (PoolFacts.init_well_formed _ _ Hinit) as [Hne _].
    unfold __init__ in Hinit. destruct (_load_api_keys getenv) as [keys|]; [|done].
    injection Hinit as <-. simpl in *. split_and!; simpl.
    + destruct keys; simpl; [done | lia].
    + intros i Hi. by apply not_elem_of_empty in Hi.
    + intros i [v Hv]. by rewrite lookup_empty in Hv.
  - by apply get_next_in_range.
  - by apply mark_failed_in_range.
  - unfold Controller.call_gemini.
    apply run_attempts_preserves; [apply get_next_in_range | apply mark_failed_in_range | done].
Qed.

Lemma reachable_in_range_witness :
  reachable Samples.twin_env Samples.twins ∧ in_range Samples.twins.
Proof.
  split; [exact ControllerFacts.twins_reachable|].
  exact (reachable_in_range Samples.twin_env Samples.twins ControllerFacts.twins_reachable).
Defined.

(** *** Calls that send nothing *)

(** X3. On a service without keys [_get_next_api_key] returns [None] and
    changes nothing, and a call with a positive attempt budget raises the
    no-keys error at once: no request is sent, no sleep is made and the
    service is left as it was. *)
Theorem empty_pool_fails_at_first_attempt
    generate_content random_uniform json_loads structured_output retry_count self :
  api_keys self = [] →
  _get_next_api_key self = (Ret None, self) ∧
  ((0 < retry_count)%Z →
   Controller.call_gemini generate_content random_uniform json_loads
     structured_output retry_count self =
   (Raise NoAvailableKeys, Controller.mkLoop self None [])).
Proof.
  intros Hnil.
  assert (_get_next_api_key self = (Ret None, self)) as Hnext
    by (unfold _get_next_api_key; by rewrite Hnil).
  split; [done|]. intros Hpos.
  unfold Controller.call_gemini, Controller.range. rewrite seqZ_cons by done.
  cbn [Controller.run_attempts]. unfold Controller.attempt_body. simpl.
  by rewrite Hnext.
Qed.

Lemma empty_pool_fails_at_first_attempt_witness :
  api_keys Samples.keyless = [] ∧
  (0 < 3)%Z ∧
  Controller.call_gemini Samples.quota_then_text Samples.half Samples.rejects true 3
    Samples.keyless =
  (Raise NoAvailableKeys, Controller.mkLoop Samples.keyless None []).
Proof.
  split; [reflexivity|]. split; [lia|].
  exact (proj2 (empty_pool_fails_at_first_attempt Samples.quota_then_text Samples.half
                  Samples.rejects true 3 Samples.keyless eq_refl) ltac:(lia)).
Defined.

(** X4. A call with an attempt budget of zero or less selects no key, sends
    no request and leaves the service untouched, whatever the upstream would
    answer: it raises the terminal failure with no last error. *)
Theorem no_budget_always_fails
    generate_content random_uniform json_loads structured_output retry_count self :
  (retry_count ≤ 0)%Z →
  Controller.call_gemini generate_content random_uniform json_loads
    structured_output retry_count self =
  (Raise (ServiceFailed retry_count None), Controller.mkLoop self None []).
Proof.
  intros Hle. unfold Controller.call_gemini, Controller.range.
  by rewrite seqZ_nil.
Qed.

Lemma no_budget_always_fails_witness :
  (0 ≤ 0)%Z ∧
  Controller.call_gemini Samples.quota_then_text Samples.half Samples.rejects false 0
    Samples.three_keys =
  (Raise (ServiceFailed 0 None), Controller.mkLoop Samples.three_keys None []).
Proof.
  split; [lia|].
  exact (no_budget_always_fails Samples.quota_then_text Samples.half Samples.rejects
           false 0 Samples.three_keys ltac:(lia)).
Defined.

(** *** A marked key is left alone *)

(** While some index is not failed, the selection keeps the failed set and
    chooses among the indices outside it. *)
Lemma available_unfailed self :
  (∃ j, j < length (api_keys self) ∧ j ∉ failed_keys self) →
  available self = (failed_keys self, unfailed_indices self).
Proof.
  intros (j & Hj & Hjf). unfold available.
  destruct (unfailed_indices self) eqn:E; [|done].
  exfalso. apply Hjf. by eapply PoolFacts.unfailed_nil_iff.
Qed.

(** X5. With pairwise distinct keys, a key that has just been marked failed
    is not the one the next selection returns, as long as some other index
    is not failed. *)
Theorem marked_key_is_skipped self j api_key :
  NoDup (api_keys self) →
  api_keys self !! j = Some api_key →
  (∃ i, i < length (api_keys self) ∧ i ≠ j ∧ i ∉ failed_keys self) →
  ∃ next_key,
    (_get_next_api_key (_mark_key_failed self api_key)).1 = Ret (Some next_key) ∧
    next_key ≠ api_key.
Proof.
  intros Hnd Hj (i & Hi & Hij & Hif).
  destruct (ControllerFacts.index_of_selected _ _ _ Hj) as (j' & Hidx & _ & Heq).
  rewrite (Heq Hnd) in Hidx.
  assert (_mark_key_failed self api_key = with_failed self (failed_keys self ∪ {[j]}))
    as Hmark by (unfold _mark_key_failed; by rewrite Hidx).
  rewrite Hmark.
  set (marked := with_failed self (failed_keys self ∪ {[j]})).
  assert (api_keys marked ≠ []) as Hne.
  { simpl. intros Hnil. by rewrite Hnil in Hj. }
  destruct (PoolFacts.get_next_ok marked Hne) as (k & next_key & _ & Hk & Hkf & ->).
  exists next_key. split; [done|].
  rewrite available_unfailed in Hkf.
  - simpl in Hk, Hkf. intros ->.
    assert (k = j) as -> by (by eapply NoDup_lookup).
    apply Hkf. by apply elem_of_union_r, elem_of_singleton.
  - exists i. simpl. split; [done|]. apply not_elem_of_union. split; [done|].
    by apply not_elem_of_singleton.
Qed.

Lemma marked_key_is_skipped_witness :
  NoDup (api_keys Samples.three_keys) ∧
  api_keys Samples.three_keys !! 0 = Some "alpha" ∧
  (∃ i, i < length (api_keys Samples.three_keys) ∧ i ≠ 0 ∧
        i ∉ failed_keys Samples.three_keys) ∧
  ∃ next_key,
    (_get_next_api_key (_mark_key_failed Samples.three_keys "alpha")).1 =
      Ret (Some next_key) ∧
    next_key ≠ "alpha".
Proof.
  assert (NoDup (api_keys Samples.three_keys)) as Hnd.
  { apply (bool_decide_unpack (NoDup (api_keys Samples.three_keys))).
    vm_compute. exact I. }
  assert (∃ i, i < length (api_keys Samples.three_keys) ∧ i ≠ 0 ∧
               i ∉ failed_keys Samples.three_keys) as Hother.
  { exists 1. simpl. split_and!; [lia | lia | apply not_elem_of_empty]. }
  split; [exact Hnd|]. split; [reflexivity|]. split; [exact Hother|].
  exact (marked_key_is_skipped Samples.three_keys 0 "alpha" Hnd eq_refl Hother).
Defined.

(** *** What the constructor loads *)

Lemma load_loop_omap getenv idxs keys :
  foldl (load_step getenv) keys idxs =
  keys ++ omap (λ i, match getenv (env_name i) with
                     | Some (String c key) => Some (String c key)
                     | _ => None
                     end) idxs.
Proof.
  revert keys. induction idxs as [|i idxs IH]; intros keys; simpl.
  - by rewrite app_nil_r.
  - rewrite IH. unfold load_step.
    destruct (getenv (env_name i)) as [[|c key]|]; simpl; [done| |done].
    by rewrite <- app_assoc.
Qed.

(** X6. The credential list of a constructed service holds, in the order
    of the variables [GEMINI_API_KEY_1] to [GEMINI_API_KEY_4], the values
    that are set and not empty, and nothing else: at most four keys; and the
    construction succeeds as soon as one of the four variables holds such a
    value, whichever it is. *)
Theorem constructor_loads_set_variables getenv :
  let keys :=
    omap (λ i, match getenv (env_name i) with
               | Some (String c key) => Some (String c key)
               | _ => None
               end) [1; 2; 3; 4] in
  length keys ≤ 4 ∧
  (∀ key, key ∈ keys ↔
          key ≠ EmptyString ∧ ∃ i, 1 ≤ i ≤ 4 ∧ getenv (env_name i) = Some key) ∧
  __init__ getenv =
    match keys with
    | [] => Raise (ValueError no_keys_message)
    | _ => Ret (mkService keys 0 ∅ ∅)
    end.
Proof.
  intros keys. split_and!.
  - unfold keys. simpl. repeat case_match; simpl; lia.
  - intros key. unfold keys. rewrite list_elem_of_omap. split.
    + intros (i & Hi & Hkey).
      destruct (getenv (env_name i)) as [[|c k]|] eqn:E; try done.
      injection Hkey as <-. split; [done|]. exists i. split; [|done].
      repeat (apply elem_of_cons in Hi as [->|Hi]; [lia|]).
      by apply elem_of_nil in Hi.
    + intros (Hne & i & Hi & Hkey). exists i. split.
      * apply list_elem_of_In. simpl. lia.
      * rewrite Hkey. by destruct key.
  - unfold __init__, _load_api_keys. change (seq 1 4) with [1; 2; 3; 4].
    rewrite load_loop_omap. cbn [app]. subst keys.
    by destruct (omap _ [1; 2; 3; 4]).
Qed.

End PoolInvariants.

(** ** More on the retry loop *)

Module CallFacts.
Import Pool Runs Controller.

Section Calls.
Variable generate_content : Z → string → response.
Variable random_uniform : Z → Q.
Variable json_loads : string → loaded.
Variable structured_output : bool.
Variable retry_count : Z.

Local Abbreviation try_request := (try_request generate_content json_loads structured_output).
Local Abbreviation attempt_body :=
  (attempt_body generate_content random_uniform json_loads structured_output retry_count).
Local Abbreviation run_attempts :=
  (run_attempts generate_content random_uniform json_loads structured_output retry_count).
Local Abbreviation call_gemini :=
  (call_gemini generate_content random_uniform json_loads structured_output retry_count).
Local Abbreviation body_request :=
  (ControllerFacts.attempt_body_request generate_content random_uniform json_loads
     structured_output retry_count).
Local Abbreviation transient_step :=
  (ControllerFacts.transient_step generate_content random_uniform json_loads
     structured_output retry_count).
Local Abbreviation quota_step :=
  (ControllerFacts.quota_step generate_content random_uniform json_loads
     structured_output retry_count).
Local Abbreviation failing_step :=
  (ControllerFacts.failing_step generate_content random_uniform json_loads
     structured_output retry_count).
Local Abbreviation request_failure :=
  (ControllerFacts.try_request_failure generate_content random_uniform json_loads
     structured_output).

(** *** Success *)

(** The [try] block on a text that is not empty: the text trimmed, what
    the extractor returns for it, or the exception that leaves the
    extractor. *)
Lemma try_request_text attempt api_key text :
  generate_content attempt api_key = Text text →
  text ≠ EmptyString →
  try_request attempt api_key =
    if structured_output
    then match Extractor._parse_structured_output json_loads (Str.strip text) with
         | inl parsed => inl (Structured parsed)
         | inr msg => inr msg
         end
    else inl (Raw (Str.strip text)).
Proof.
  intros Hgen Hne. unfold Controller.try_request. rewrite Hgen.
  by destruct text.
Qed.

(** Failing attempts none of which is the last one, all of them before
    attempt 1024, are gone through, one request each, and the loop is at the
    attempts that follow. *)
Lemma run_failing_prefix n : ∀ a st rest,
  well_formed (svc st) →
  (a + Z.of_nat n < retry_count)%Z →
  (a + Z.of_nat n ≤ 1024)%Z →
  (∀ k key, (a ≤ k < a + Z.of_nat n)%Z → failure_of (generate_content k key) ≠ None) →
  ∃ st2,
    run_attempts (seqZ a (Z.of_nat n) ++ rest) st = run_attempts rest st2 ∧
    api_keys (svc st2) = api_keys (svc st) ∧
    (requests (trace st2)).*1 = (requests (trace st)).*1 ++ seqZ a (Z.of_nat n).
Proof.
  induction n as [|n IH]; intros a st rest Hwf Ha Hfloat Hfail.
  - exists st. rewrite seqZ_nil by done. simpl. by rewrite app_nil_r.
  - rewrite seqZ_cons by lia.
    replace (Z.pred (Z.of_nat (S n))) with (Z.of_nat n) by lia.
    destruct (failing_step a st Hwf) as (st1 & key & _ & Hreq & Hkeys & Hflow).
    { intros key. apply Hfail. lia. }
    destruct Hflow as [Hbody | [[_ Hlast] | [_ Hover]]]; [|lia|lia].
    destruct (IH (Z.succ a) st1 rest) as (st2 & Hrun & Hkeys2 & Hreqs).
    { by eapply ControllerFacts.well_formed_keys. }
    { lia. }
    { lia. }
    { intros k key' Hk. apply Hfail. lia. }
    exists st2. cbn [app Controller.run_attempts]. rewrite Hbody. split_and!.
    + done.
    + by rewrite Hkeys2.
    + rewrite Hreqs, Hreq, fmap_app, <- app_assoc. done.
Qed.

(** The loop from any state: failing attempts, then an attempt that reads
    a text from which the [try] block returns. *)
Lemma run_attempts_until_text k text parsed st rest :
  well_formed (svc st) →
  (0 ≤ k < retry_count)%Z →
  (k ≤ 1024)%Z →
  (∀ j key, (0 ≤ j < k)%Z → failure_of (generate_content j key) ≠ None) →
  (∀ key, generate_content k key = Text text) →
  text ≠ EmptyString →
  (structured_output = true →
   Extractor._parse_structured_output json_loads (Str.strip text) = inl parsed) →
  ∃ st',
    run_attempts (seqZ 0 k ++ k :: rest) st =
      (Ret (if structured_output then Structured parsed else Raw (Str.strip text)),
       st') ∧
    api_keys (svc st') = api_keys (svc st) ∧
    (requests (trace st')).*1 = (requests (trace st)).*1 ++ seqZ 0 (k + 1).
Proof.
  intros Hwf Hk Hfloat Hfail Htext Hne Hparsed.
  destruct (run_failing_prefix (Z.to_nat k) 0 st (k :: rest))
    as (st2 & Hrun & Hkeys & Hreqs); [done|lia|lia| |].
  { intros j key Hj. apply Hfail. lia. }
  rewrite Z2Nat.id in Hrun, Hreqs by lia. rewrite Hrun.
  cbn [Controller.run_attempts].
  assert (well_formed (svc st2)) as Hwf2 by (by eapply ControllerFacts.well_formed_keys).
  destruct (body_request k st2 Hwf2) as (i & key & _ & _ & _ & _ & _ & ->).
  cbn zeta. rewrite (try_request_text k key text (Htext key) Hne).
  assert ((if structured_output
           then match Extractor._parse_structured_output json_loads (Str.strip text) with
                | inl parsed => inl (Structured parsed)
                | inr msg => inr msg
                end
           else inl (Raw (Str.strip text))) =
          (inl (if structured_output then Structured parsed else Raw (Str.strip text))
             : payload + string)) as ->.
  { destruct structured_output; [|done]. by rewrite Hparsed. }
  eexists. split; [done|]. cbn [trace svc]. split.
  - by rewrite PoolFacts.get_next_api_keys.
  - rewrite ControllerFacts.requests_app, fmap_app, Hreqs. simpl.
    replace (k + 1)%Z with (Z.of_nat (S (Z.to_nat k))) by lia.
    rewrite seqZ_S, Z2Nat.id by lia. by rewrite <- app_assoc.
Qed.

(** X7. If the attempts before attempt [k] fail, with [k] at most 1024 so
    that every delay between them has a float, and attempt [k] reads a text
    that is not empty, the call returns that text trimmed or, for a
    structured output, what the extractor returns for the trimmed text, and
    exactly the attempts [0 .. k] have sent a request: the later ones are
    not made. *)
Theorem first_text_is_returned k text parsed self :
  well_formed self →
  (0 ≤ k < retry_count)%Z →
  (k ≤ 1024)%Z →
  (∀ j key, (0 ≤ j < k)%Z → failure_of (generate_content j key) ≠ None) →
  (∀ key, generate_content k key = Text text) →
  text ≠ EmptyString →
  (structured_output = true →
   Extractor._parse_structured_output json_loads (Str.strip text) = inl parsed) →
  ∃ st',
    call_gemini self =
      (Ret (if structured_output then Structured parsed else Raw (Str.strip text)),
       st') ∧
    (requests (trace st')).*1 = seqZ 0 (k + 1).
Proof.
  intros Hwf Hk Hfloat Hfail Htext Hne Hparsed.
  unfold Controller.call_gemini, range.
  assert (seqZ 0 retry_count =
          seqZ 0 k ++ k :: seqZ (Z.succ k) (Z.pred (retry_count - k))) as ->.
  { replace retry_count with (k + (retry_count - k))%Z at 1 by lia.
    by rewrite seqZ_app, Z.add_0_l, (seqZ_cons k) by lia. }
  destruct (run_attempts_until_text k text parsed (mkLoop self None [])
              (seqZ (Z.succ k) (Z.pred (retry_count - k))))
    as (st' & Hrun & _ & Hreqs); [done..|].
  exists st'. split; [exact Hrun|]. by rewrite Hreqs.
Qed.

(** X8. A text made of white space only is not an empty response: the
    first attempt ends the call, which returns the empty string or, for a
    structured output, what [json.loads] makes of the empty string, if
    anything, and the diagnostic dictionary if not, after one request and
    no sleep. *)
Theorem blank_text_is_returned text self :
  well_formed self →
  (0 < retry_count)%Z →
  (∀ key, generate_content 0 key = Text text) →
  text ≠ EmptyString →
  Str.strip text = EmptyString →
  (structured_output = true → ∀ msg, json_loads EmptyString ≠ OtherError msg) →
  ∃ st',
    call_gemini self =
      (Ret (if structured_output
            then Structured (match json_loads EmptyString with
                             | Loaded v => v
                             | _ => Extractor.diagnostic EmptyString
                             end)
            else Raw EmptyString), st') ∧
    (requests (trace st')).*1 = [0%Z] ∧
    sleeps (trace st') = [].
Proof.
  intros Hwf Hpos Htext Hne Hblank Hjson.
  unfold Controller.call_gemini, range. rewrite seqZ_cons by done.
  cbn [Controller.run_attempts].
  destruct (body_request 0 (mkLoop self None []) Hwf) as (i & key & _ & _ & _ & _ & _ & ->).
  cbn zeta. rewrite (try_request_text 0 key text (Htext key) Hne), Hblank.
  destruct structured_output.
  - unfold Extractor._parse_structured_output.
    change (Extractor.json_str (Extractor.remove_code_block (Str.strip EmptyString)))
      with EmptyString.
    change (Extractor.remove_code_block (Str.strip EmptyString)) with EmptyString.
    specialize (Hjson eq_refl).
    destruct (json_loads EmptyString) as [v| |msg]; [| |by destruct (Hjson msg)];
      by eexists.
  - by eexists.
Qed.

(** *** Failures that are not quota failures *)

Lemma run_all_transient n : ∀ a st,
  well_formed (svc st) →
  (a + Z.of_nat n = retry_count)%Z →
  (retry_count ≤ 1025)%Z →
  (∀ k key, (a ≤ k < retry_count)%Z →
     ∃ msg, failure_of (generate_content k key) = Some msg ∧
            is_quota_error msg = false) →
  ∃ st',
    run_attempts (seqZ a (Z.of_nat n)) st =
      (Raise (ServiceFailed retry_count (last_error st')), st') ∧
    sleeps (trace st') =
      sleeps (trace st) ++
      ((λ k, (inject_Z (2 ^ k) + random_uniform k)%Q) <$> seqZ a (Z.of_nat n - 1)) ∧
    svc st' = after_selections n (svc st) ∧
    Some <$> (requests (trace st')).*2 =
      (Some <$> (requests (trace st)).*2) ++
      ((λ i, api_keys (svc st) !! i) <$> select_many n (svc st)).
Proof.
  induction n as [|n IH]; intros a st Hwf Ha Hrc Hfail.
  - exists st. rewrite !seqZ_nil by lia. simpl. by rewrite !app_nil_r.
  - rewrite seqZ_cons by lia.
    replace (Z.pred (Z.of_nat (S n))) with (Z.of_nat n) by lia.
    destruct (body_request a st Hwf) as (i & key & Hsel & Hlk & _ & _ & Hkey & _).
    destruct (Hfail a key ltac:(lia)) as (msg & Hmsg & Hq).
    apply request_failure in Hmsg.
    pose proof (transient_step a st key msg Hwf Hkey Hmsg Hq) as Hbody.
    cbn [Controller.run_attempts select_many after_selections]. rewrite Hsel.
    destruct (Z.ltb_spec a (retry_count - 1)) as [Hlt|Hge].
    all: rewrite ?(proj2 (Z.ltb_lt a 1024)) in Hbody by lia; rewrite Hbody.
    + destruct (IH (Z.succ a)
                  (mkLoop (_get_next_api_key (svc st)).2 (Some msg)
                     (trace st ++
                      [Request a key;
                       Sleep (inject_Z (2 ^ a) + random_uniform a)%Q])))
        as (st' & Hrun & Hsleeps & Hsvc & Hkeys).
      { simpl. eapply ControllerFacts.well_formed_keys; [|done].
        apply PoolFacts.get_next_api_keys. }
      { lia. }
      { lia. }
      { intros k key' Hk. apply Hfail. lia. }
      exists st'. simpl in Hsleeps, Hsvc, Hkeys. split_and!; [done| |done|].
      * rewrite Hsleeps, ControllerFacts.sleeps_app. simpl.
        replace (Z.of_nat (S n) - 1)%Z with (Z.of_nat n) by lia.
        rewrite (seqZ_cons a (Z.of_nat n)) by lia.
        replace (Z.pred (Z.of_nat n)) with (Z.of_nat n - 1)%Z by lia.
        by rewrite <- app_assoc.
      * rewrite Hkeys, ControllerFacts.requests_app, !fmap_app. simpl.
        rewrite PoolFacts.get_next_api_keys, Hlk. by rewrite <- app_assoc.
    + assert (n = 0) as -> by lia. eexists. split; [done|]. simpl.
      rewrite ControllerFacts.sleeps_app, ControllerFacts.requests_app, !fmap_app.
      simpl. by rewrite Hlk.
Qed.

(** X9. When every attempt of a call with at most 1025 attempts, where
    every delay has a float, fails without a quota message, the call sleeps
    after each attempt but the last, for [2^k] plus the draw after attempt
    [k]; the service goes through [retry_count] selections and nothing else,
    so that the keys of the requests are those of that many consecutive
    selections: with no failed index, the key at the cursor and its
    successors in the list, cyclically. *)
Theorem transient_failures_rotate_and_back_off self :
  well_formed self →
  (0 ≤ retry_count ≤ 1025)%Z →
  (∀ k key, (0 ≤ k < retry_count)%Z →
     ∃ msg, failure_of (generate_content k key) = Some msg ∧
            is_quota_error msg = false) →
  ∃ st',
    call_gemini self = (Raise (ServiceFailed retry_count (last_error st')), st') ∧
    sleeps (trace st') =
      ((λ k, (inject_Z (2 ^ k) + random_uniform k)%Q) <$> seqZ 0 (retry_count - 1)) ∧
    svc st' = after_selections (Z.to_nat retry_count) self ∧
    Some <$> (requests (trace st')).*2 =
      ((λ i, api_keys self !! i) <$> select_many (Z.to_nat retry_count) self) ∧
    ((∀ i, i < length (api_keys self) → i ∉ failed_keys self) →
     Some <$> (requests (trace st')).*2 =
       ((λ j, api_keys self !! ((current_key_index self + j) mod length (api_keys self)))
          <$> seq 0 (Z.to_nat retry_count))).
Proof.
  intros Hwf Hrc Hfail.
  destruct (run_all_transient (Z.to_nat retry_count) 0 (mkLoop self None []))
    as (st' & Hrun & Hsleeps & Hsvc & Hkeys); [done|lia|lia|done|].
  rewrite Z2Nat.id in Hrun, Hsleeps by lia. simpl in Hsleeps, Hsvc, Hkeys.
  exists st'. split_and!; [done..|].
  intros Hnone. rewrite Hkeys, PoolFacts.select_many_rotation by (done || apply Hwf).
  by rewrite <- list_fmap_compose.
Qed.

(** *** Quota failures *)

Lemma run_all_quota n : ∀ a st,
  well_formed (svc st) →
  (a + Z.of_nat n = retry_count)%Z →
  (∀ k key, (a ≤ k < retry_count)%Z →
     ∃ msg, generate_content k key = Failure msg ∧ is_quota_error msg = true) →
  ∃ st',
    run_attempts (seqZ a (Z.of_nat n)) st =
      (Raise (ServiceFailed retry_count (last_error st')), st') ∧
    sleeps (trace st') = sleeps (trace st) ∧
    length (requests (trace st')) = length (requests (trace st)) + n.
Proof.
  induction n as [|n IH]; intros a st Hwf Ha Hfail.
  - exists st. rewrite seqZ_nil by lia. simpl. split_and!; [done..|lia].
  - rewrite seqZ_cons by lia.
    replace (Z.pred (Z.of_nat (S n))) with (Z.of_nat n) by lia.
    destruct (body_request a st Hwf) as (i & key & _ & _ & _ & _ & Hkey & _).
    destruct (Hfail a key ltac:(lia)) as (msg & Hgen & Hq).
    assert (try_request a key = inr msg) as Htry.
    { apply request_failure. by rewrite Hgen. }
    cbn [Controller.run_attempts]. rewrite (quota_step a st key msg Hwf Hkey Htry Hq).
    destruct (IH (Z.succ a)
                (mkLoop (_mark_key_failed (_get_next_api_key (svc st)).2 key) (Some msg)
                   (trace st ++ [Request a key])))
      as (st' & Hrun & Hsleeps & Hlen).
    { simpl. eapply ControllerFacts.well_formed_keys; [|done].
      by rewrite PoolFacts.mark_failed_api_keys, PoolFacts.get_next_api_keys. }
    { lia. }
    { intros k key' Hk. apply Hfail. lia. }
    exists st'. split_and!; [done| |].
    + rewrite Hsleeps. simpl. rewrite ControllerFacts.sleeps_app. simpl.
      by rewrite app_nil_r.
    + rewrite Hlen. simpl. rewrite ControllerFacts.requests_app, length_app. simpl. lia.
Qed.

(** X10. When every attempt fails with a quota message the call never
    sleeps: its trace holds [retry_count] requests and no sleep. *)
Theorem quota_failures_never_sleep self :
  well_formed self →
  (0 ≤ retry_count)%Z →
  (∀ k key, (0 ≤ k < retry_count)%Z →
     ∃ msg, generate_content k key = Failure msg ∧ is_quota_error msg = true) →
  ∃ st',
    call_gemini self = (Raise (ServiceFailed retry_count (last_error st')), st') ∧
    sleeps (trace st') = [] ∧
    length (requests (trace st')) = Z.to_nat retry_count.
Proof.
  intros Hwf Hrc Hfail.
  destruct (run_all_quota (Z.to_nat retry_count) 0 (mkLoop self None []))
    as (st' & Hrun & Hsleeps & Hlen); [done|lia|done|].
  rewrite Z2Nat.id in Hrun by lia.
  exists st'. split_and!; done.
Qed.

(** Marking one more unfailed index leaves one index less to choose from. *)
Lemma filter_mark_absent (F : gset nat) i (l : list nat) :
  i ∉ l → filter (λ x, x ∉ F ∪ {[i]}) l = filter (λ x, x ∉ F) l.
Proof.
  induction l as [|x l IH]; intros Hi; [done|].
  apply not_elem_of_cons in Hi as [Hxi Hil]. rewrite !filter_cons, IH by done.
  destruct (decide (x ∉ F)) as [Hx|Hx].
  - rewrite decide_True; [done|].
    apply not_elem_of_union. split; [done|]. apply not_elem_of_singleton. congruence.
  - rewrite decide_False; [done|]. intros H. apply Hx. intros HF. apply H.
    by apply elem_of_union_l.
Qed.

Lemma filter_mark_present (F : gset nat) i (l : list nat) :
  NoDup l → i ∈ filter (λ x, x ∉ F) l →
  length (filter (λ x, x ∉ F ∪ {[i]}) l) = length (filter (λ x, x ∉ F) l) - 1.
Proof.
  induction 1 as [|x l Hx Hnd IH]; intros Hin.
  - by apply elem_of_nil in Hin.
  - rewrite !filter_cons. destruct (decide (x = i)) as [->|Hxi].
    + apply list_elem_of_filter in Hin as [Hif _].
      rewrite decide_False
        by (intros H; apply H; by apply elem_of_union_r, elem_of_singleton).
      rewrite decide_True by done. simpl. rewrite Nat.sub_0_r.
      by rewrite filter_mark_absent.
    + rewrite filter_cons in Hin.
      assert (i ∈ filter (λ x, x ∉ F) l) as Hin'.
      { destruct (decide (x ∉ F)); [|done].
        apply elem_of_cons in Hin as [->|]; done. }
      specialize (IH Hin').
      assert (0 < length (filter (λ x, x ∉ F) l)).
      { destruct (filter (λ x, x ∉ F) l); [by apply elem_of_nil in Hin'|simpl; lia]. }
      destruct (decide (x ∉ F)) as [HxF|HxF].
      * rewrite decide_True.
        { simpl. lia. }
        apply not_elem_of_union. split; [done|]. by apply not_elem_of_singleton.
      * rewrite decide_False; [done|]. intros H'. apply HxF. intros HF. apply H'.
        by apply elem_of_union_l.
Qed.

Lemma unfailed_after_mark self i :
  i ∈ unfailed_indices self →
  length (unfailed_indices (with_failed self (failed_keys self ∪ {[i]}))) =
  length (unfailed_indices self) - 1.
Proof.
  unfold unfailed_indices. simpl. apply filter_mark_present, NoDup_seq.
Qed.

Lemma run_quota_fresh n : ∀ a st,
  well_formed (svc st) →
  NoDup (api_keys (svc st)) →
  (a + Z.of_nat n = retry_count)%Z →
  n ≤ length (unfailed_indices (svc st)) →
  (∀ k key, (a ≤ k < retry_count)%Z →
     ∃ msg, generate_content k key = Failure msg ∧ is_quota_error msg = true) →
  ∃ st' idxs,
    run_attempts (seqZ a (Z.of_nat n)) st =
      (Raise (ServiceFailed retry_count (last_error st')), st') ∧
    NoDup idxs ∧
    length idxs = n ∧
    (∀ i, i ∈ idxs → i ∉ failed_keys (svc st)) ∧
    Some <$> (requests (trace st')).*2 =
      (Some <$> (requests (trace st)).*2) ++
      ((λ i, api_keys (svc st) !! i) <$> idxs) ∧
    failed_keys (svc st') = failed_keys (svc st) ∪ list_to_set idxs.
Proof.
  induction n as [|n IH]; intros a st Hwf Hnd Ha Hbudget Hfail.
  - exists st, []. rewrite seqZ_nil by lia. simpl.
    split_and!; [done|constructor|done| |by rewrite app_nil_r|by rewrite (right_id_L ∅ (∪))].
    intros i Hi. by apply elem_of_nil in Hi.
  - rewrite seqZ_cons by lia.
    replace (Z.pred (Z.of_nat (S n))) with (Z.of_nat n) by lia.
    destruct Hwf as [Hne Hall].
    destruct (PoolFacts.get_next_ok (svc st) Hne) as (i & key & Hsel & Hlk & Hnf & Hnext).
    assert (∃ j, j < length (api_keys (svc st)) ∧ j ∉ failed_keys (svc st)) as Hsome.
    { destruct (unfailed_indices (svc st)) as [|j l] eqn:E; [simpl in Hbudget; lia|].
      exists j. apply PoolFacts.elem_of_unfailed. rewrite E. left. }
    rewrite (PoolInvariants.available_unfailed _ Hsome) in Hnf, Hnext.
    cbn [fst snd] in Hnf, Hnext.
    assert ((_get_next_api_key (svc st)).1 = Ret (Some key)) as Hkey by (by rewrite Hnext).
    destruct (Hfail a key ltac:(lia)) as (msg & Hgen & Hq).
    assert (try_request a key = inr msg) as Htry.
    { apply request_failure. by rewrite Hgen. }
    cbn [Controller.run_attempts].
    rewrite (quota_step a st key msg (conj Hne Hall) Hkey Htry Hq).
    destruct (ControllerFacts.index_of_selected _ _ _ Hlk) as (i' & Hidx & _ & Heq).
    rewrite (Heq Hnd) in Hidx. clear i' Heq.
    rewrite Hnext. cbn [snd]. unfold _mark_key_failed. cbn [api_keys]. rewrite Hidx.
    unfold with_failed. cbn [api_keys current_key_index key_usage_count failed_keys].
    assert (i ∈ unfailed_indices (svc st)) as Hin.
    { apply PoolFacts.elem_of_unfailed. split; [by eapply lookup_lt_Some | done]. }
    pose proof (unfailed_after_mark (svc st) i Hin) as Hless.
    match goal with
    | |- context [Controller.run_attempts _ _ _ _ _ _ ?s] => set (st1 := s)
    end.
    destruct (IH (Z.succ a) st1) as (st' & idxs & Hrun & Hndi & Hlen & Hfresh & Hkeys & Hfailed).
    { done. }
    { done. }
    { lia. }
    { unfold st1, unfailed_indices in *. simpl in *. lia. }
    { intros k key' Hk. apply Hfail. lia. }
    exists st', (i :: idxs). simpl in Hfresh, Hkeys, Hfailed.
    split_and!.
    + done.
    + apply NoDup_cons. split; [|done]. intros Hi. apply (Hfresh i Hi).
      by apply elem_of_union_r, elem_of_singleton.
    + simpl. by rewrite Hlen.
    + intros j [->|Hj]%elem_of_cons; [done|].
      intros HF. apply (Hfresh j Hj). by apply elem_of_union_l.
    + rewrite Hkeys, ControllerFacts.requests_app, !fmap_app. simpl.
      rewrite Hlk. by rewrite <- app_assoc.
    + rewrite Hfailed. simpl. by rewrite (assoc_L (∪)).
Qed.

(** X11. With pairwise distinct keys and at least [retry_count] indices
    that are not failed, a call all of whose attempts fail with a quota
    message sends each request with a different key, every one of them a
    key that was not failed before the call and is failed after it. *)
Theorem quota_failures_use_fresh_keys self :
  well_formed self →
  NoDup (api_keys self) →
  (0 ≤ retry_count)%Z →
  Z.to_nat retry_count ≤ length (unfailed_indices self) →
  (∀ k key, (0 ≤ k < retry_count)%Z →
     ∃ msg, generate_content k key = Failure msg ∧ is_quota_error msg = true) →
  ∃ st',
    call_gemini self = (Raise (ServiceFailed retry_count (last_error st')), st') ∧
    NoDup (requests (trace st')).*2 ∧
    length (requests (trace st')) = Z.to_nat retry_count ∧
    (∀ key, key ∈ (requests (trace st')).*2 →
       ∃ i, api_keys self !! i = Some key ∧
            (i ∉ failed_keys self) ∧
            i ∈ failed_keys (svc st')).
Proof.
  intros Hwf Hnd Hrc Hbudget Hfail.
  destruct (run_quota_fresh (Z.to_nat retry_count) 0 (mkLoop self None []))
    as (st' & idxs & Hrun & Hndi & Hlen & Hfresh & Hkeys & Hfailed);
    [done|done|lia|done|done|].
  rewrite Z2Nat.id in Hrun by lia. simpl in Hfresh, Hkeys, Hfailed.
  exists st'.
  assert (∀ key, key ∈ (requests (trace st')).*2 →
            ∃ i, i ∈ idxs ∧ api_keys self !! i = Some key) as Hfrom.
  { intros key Hkey.
    assert (Some key ∈ (λ i, api_keys self !! i) <$> idxs) as Hin.
    { rewrite <- Hkeys. apply list_elem_of_fmap. by exists key. }
    apply list_elem_of_fmap in Hin as (i & Hi & Hin). by exists i. }
  split_and!.
  - done.
  - apply (NoDup_fmap_1 Some). rewrite Hkeys.
    apply NoDup_fmap_2_strong; [|done].
    intros x y Hx Hy Hxy.
    assert (is_Some (api_keys self !! x)) as [kx Hkx].
    { assert ((api_keys self !! x) ∈ Some <$> (requests (trace st')).*2) as Hin
        by (rewrite Hkeys; apply list_elem_of_fmap; by exists x).
      apply list_elem_of_fmap in Hin as (k & -> & _). by eexists. }
    rewrite Hkx in Hxy. symmetry in Hxy.
    exact (NoDup_lookup _ _ _ _ Hnd Hkx Hxy).
  - transitivity (length (Some <$> (requests (trace st')).*2));
      [by rewrite !length_fmap|].
    by rewrite Hkeys, length_fmap.
  - intros key Hkey. destruct (Hfrom key Hkey) as (i & Hi & Hlk).
    exists i. split_and!; [done|by apply Hfresh|].
    rewrite Hfailed. apply elem_of_union_r. by apply elem_of_list_to_set.
Qed.

(** *** Requests and usage counters *)

Lemma mark_failed_total_usage self api_key :
  total_usage (_mark_key_failed self api_key) = total_usage self.
Proof. unfold _mark_key_failed. by destruct (index (api_keys self) api_key). Qed.

Lemma attempt_body_counts attempt st :
  well_formed (svc st) →
  total_usage (svc (attempt_body attempt st).2) = S (total_usage (svc st)) ∧
  length (requests (trace (attempt_body attempt st).2)) =
    S (length (requests (trace st))).
Proof.
  intros Hwf.
  destruct (body_request attempt st Hwf) as (i & key & _ & _ & _ & _ & _ & ->).
  destruct (PoolInvariants.get_next_usage (svc st) 0 (proj1 Hwf)) as (_ & _ & _ & Htotal).
  cbn zeta. destruct (try_request attempt key) as [v|msg]; simpl.
  - rewrite ControllerFacts.requests_app, length_app. simpl. split; [done|lia].
  - unfold Controller.handle_error. destruct (is_quota_error msg); simpl.
    + rewrite mark_failed_total_usage, ControllerFacts.requests_app, length_app.
      simpl. split; [done|lia].
    + destruct (attempt <? retry_count - 1)%Z; [destruct (float_of_int _)|]; simpl;
        rewrite !ControllerFacts.requests_app, !length_app; simpl; split; (done || lia).
Qed.

(** X12. Whatever the outcome of a call on a well-formed service, the usage
    counters have grown together by the number of requests the call has
    sent: one selection per request, and a request after every selection. *)
Theorem every_request_is_counted self :
  well_formed self →
  total_usage (svc (call_gemini self).2) =
  total_usage self + length (requests (trace (call_gemini self).2)).
Proof.
  intros Hwf. unfold Controller.call_gemini.
  assert (∀ attempts st,
            well_formed (svc st) →
            total_usage (svc (run_attempts attempts st).2)
              + length (requests (trace st)) =
            total_usage (svc st)
              + length (requests (trace (run_attempts attempts st).2))) as Hgen.
  { induction attempts as [|attempt rest IH]; intros st Hst; simpl; [done|].
    destruct (attempt_body_counts attempt st Hst) as [Husage Hreqs].
    pose proof (ControllerFacts.attempt_body_api_keys generate_content random_uniform
                  json_loads structured_output retry_count attempt st) as Hkeys.
    destruct (attempt_body attempt st) as [[v|e| |] st1]; simpl in *; try lia.
    assert (well_formed (svc st1)) as Hst1
      by (by eapply ControllerFacts.well_formed_keys).
    specialize (IH st1 Hst1). lia. }
  specialize (Hgen (range retry_count) (mkLoop self None []) Hwf).
  simpl in Hgen. lia.
Qed.

(** *** Exceptions of the parser *)

(** X18. With a structured output, a text on which [json.loads] raises an
    exception that is not a [JSONDecodeError] does not end the call: the
    exception leaves the extractor, the loop catches it, and the iteration
    is the one of an upstream failure with the message of that exception,
    down to the mark on the key when the message reads as a quota message
    and to the sleep when it does not. *)
Theorem parser_exception_fails_the_attempt attempt st text msg :
  structured_output = true →
  (∀ key, generate_content attempt key = Text text) →
  text ≠ EmptyString →
  json_loads (Extractor.json_str (Described.normalize (Str.strip text))) =
    OtherError msg →
  attempt_body attempt st =
  Controller.attempt_body (λ _ _, Failure msg) random_uniform json_loads
    structured_output retry_count attempt st.
Proof.
  intros Hso Htext Hne Hjson. unfold Controller.attempt_body.
  destruct (_get_next_api_key (svc st)) as [[[[|c key]|]|e] self1]; try done.
  assert (try_request attempt (String c key) = inr msg) as ->.
  { rewrite (try_request_text _ _ text (Htext _) Hne), Hso.
    unfold Extractor._parse_structured_output.
    change (Extractor.remove_code_block (Str.strip (Str.strip text)))
      with (Described.normalize (Str.strip text)).
    by rewrite Hjson. }
  done.
Qed.

End Calls.

Lemma first_text_is_returned_witness :
  well_formed Samples.three_keys ∧
  (0 ≤ 1 < 3)%Z ∧
  (1 ≤ 1024)%Z ∧
  (∀ j key, (0 ≤ j < 1)%Z → failure_of (Samples.quota_then_text j key) ≠ None) ∧
  (∀ key, Samples.quota_then_text 1 key = Text " hello ") ∧
  Extractor._parse_structured_output Samples.rejects (Str.strip " hello ") =
    inl (Extractor.diagnostic "hello") ∧
  ∃ st',
    call_gemini Samples.quota_then_text Samples.half Samples.rejects true 3
      Samples.three_keys = (Ret (Structured (Extractor.diagnostic "hello")), st') ∧
    (requests (trace st')).*1 = seqZ 0 (1 + 1).
Proof.
  assert (∀ j key, (0 ≤ j < 1)%Z →
            failure_of (Samples.quota_then_text j key) ≠ None) as Hfail.
  { intros j key Hj. assert (j = 0%Z) as -> by lia. discriminate. }
  split; [exact ControllerFacts.three_keys_well_formed|].
  split; [lia|]. split; [lia|]. split; [exact Hfail|]. split; [reflexivity|].
  split; [reflexivity|].
  exact (first_text_is_returned Samples.quota_then_text Samples.half Samples.rejects
           true 3 1 " hello " (Extractor.diagnostic "hello") Samples.three_keys
           ControllerFacts.three_keys_well_formed ltac:(lia) ltac:(lia) Hfail
           (λ _, eq_refl) ltac:(discriminate) (λ _, eq_refl)).
Defined.

Lemma blank_text_is_returned_witness :
  well_formed Samples.three_keys ∧
  (0 < 3)%Z ∧
  (∀ key, Samples.always_blank 0 key = Text "   ") ∧
  Str.strip "   " = EmptyString ∧
  (∀ msg, Samples.rejects EmptyString ≠ OtherError msg) ∧
  ∃ st',
    call_gemini Samples.always_blank Samples.half Samples.rejects true 3
      Samples.three_keys =
      (Ret (Structured (Extractor.diagnostic EmptyString)), st') ∧
    (requests (trace st')).*1 = [0%Z] ∧
    sleeps (trace st') = [].
Proof.
  assert (∀ msg, Samples.rejects EmptyString ≠ OtherError msg) as Hjson
    by (intros msg; discriminate).
  split; [exact ControllerFacts.three_keys_well_formed|].
  split; [lia|]. split; [reflexivity|]. split; [reflexivity|]. split; [exact Hjson|].
  exact (blank_text_is_returned Samples.always_blank Samples.half Samples.rejects
           true 3 "   " Samples.three_keys
           ControllerFacts.three_keys_well_formed ltac:(lia)
           (λ _, eq_refl) ltac:(discriminate) eq_refl (λ _, Hjson)).
Defined.

Lemma transient_failures_rotate_and_back_off_witness :
  well_formed Samples.three_keys ∧
  (0 ≤ 3 ≤ 1025)%Z ∧
  (∀ k key, (0 ≤ k < 3)%Z →
     ∃ msg, failure_of (Samples.always_unavailable k key) = Some msg ∧
            is_quota_error msg = false) ∧
  ∃ st',
    call_gemini Samples.always_unavailable Samples.half Samples.rejects false 3
      Samples.three_keys = (Raise (ServiceFailed 3 (last_error st')), st') ∧
    sleeps (trace st') =
      ((λ k, (inject_Z (2 ^ k) + Samples.half k)%Q) <$> seqZ 0 (3 - 1)) ∧
    svc st' = after_selections (Z.to_nat 3) Samples.three_keys ∧
    Some <$> (requests (trace st')).*2 =
      ((λ i, api_keys Samples.three_keys !! i)
         <$> select_many (Z.to_nat 3) Samples.three_keys) ∧
    ((∀ i, i < length (api_keys Samples.three_keys) →
           i ∉ failed_keys Samples.three_keys) →
     Some <$> (requests (trace st')).*2 =
       ((λ j, api_keys Samples.three_keys
                !! ((current_key_index Samples.three_keys + j)
                      mod length (api_keys Samples.three_keys)))
          <$> seq 0 (Z.to_nat 3))).
Proof.
  assert (∀ k key, (0 ≤ k < 3)%Z →
            ∃ msg, failure_of (Samples.always_unavailable k key) = Some msg ∧
                   is_quota_error msg = false) as Hfail.
  { intros k key _. by eexists. }
  split; [exact ControllerFacts.three_keys_well_formed|].
  split; [lia|]. split; [exact Hfail|].
  exact (transient_failures_rotate_and_back_off Samples.always_unavailable Samples.half
           Samples.rejects false 3 Samples.three_keys
           ControllerFacts.three_keys_well_formed ltac:(lia) Hfail).
Defined.

Lemma quota_failures_never_sleep_witness :
  well_formed Samples.twins ∧
  (0 ≤ 3)%Z ∧
  (∀ k key, (0 ≤ k < 3)%Z →
     ∃ msg, Samples.always_quota k key = Failure msg ∧ is_quota_error msg = true) ∧
  ∃ st',
    call_gemini Samples.always_quota Samples.half Samples.rejects false 3 Samples.twins =
      (Raise (ServiceFailed 3 (last_error st')), st') ∧
    sleeps (trace st') = [] ∧
    length (requests (trace st')) = Z.to_nat 3.
Proof.
  assert (well_formed Samples.twins) as Hwf
    by exact (ControllerFacts.reachable_well_formed _ _ ControllerFacts.twins_reachable).
  assert (∀ k key, (0 ≤ k < 3)%Z →
            ∃ msg, Samples.always_quota k key = Failure msg ∧
                   is_quota_error msg = true) as Hfail.
  { intros k key _. by eexists. }
  split; [exact Hwf|]. split; [lia|]. split; [exact Hfail|].
  exact (quota_failures_never_sleep Samples.always_quota Samples.half Samples.rejects
           false 3 Samples.twins Hwf ltac:(lia) Hfail).
Defined.

Lemma quota_failures_use_fresh_keys_witness :
  well_formed Samples.three_keys ∧
  NoDup (api_keys Samples.three_keys) ∧
  (0 ≤ 3)%Z ∧
  Z.to_nat 3 ≤ length (unfailed_indices Samples.three_keys) ∧
  (∀ k key, (0 ≤ k < 3)%Z →
     ∃ msg, Samples.always_quota k key = Failure msg ∧ is_quota_error msg = true) ∧
  ∃ st',
    call_gemini Samples.always_quota Samples.half Samples.rejects false 3
      Samples.three_keys = (Raise (ServiceFailed 3 (last_error st')), st') ∧
    NoDup (requests (trace st')).*2 ∧
    length (requests (trace st')) = Z.to_nat 3 ∧
    (∀ key, key ∈ (requests (trace st')).*2 →
       ∃ i, api_keys Samples.three_keys !! i = Some key ∧
            (i ∉ failed_keys Samples.three_keys) ∧
            i ∈ failed_keys (svc st')).
Proof.
  assert (NoDup (api_keys Samples.three_keys)) as Hnd.
  { apply (bool_decide_unpack (NoDup (api_keys Samples.three_keys))).
    vm_compute. exact I. }
  assert (Z.to_nat 3 ≤ length (unfailed_indices Samples.three_keys)) as Hbudget.
  { vm_compute. lia. }
  assert (∀ k key, (0 ≤ k < 3)%Z →
            ∃ msg, Samples.always_quota k key = Failure msg ∧
                   is_quota_error msg = true) as Hfail.
  { intros k key _. by eexists. }
  split; [exact ControllerFacts.three_keys_well_formed|].
  split; [exact Hnd|]. split; [lia|]. split; [exact Hbudget|]. split; [exact Hfail|].
  exact (quota_failures_use_fresh_keys Samples.always_quota Samples.half Samples.rejects
           false 3 Samples.three_keys
           ControllerFacts.three_keys_well_formed Hnd ltac:(lia) Hbudget Hfail).
Defined.

Lemma every_request_is_counted_witness :
  well_formed Samples.three_keys ∧
  total_usage
    (svc (call_gemini Samples.quota_then_text Samples.half Samples.rejects false 3
            Samples.three_keys).2) =
  total_usage Samples.three_keys +
  length (requests (trace (call_gemini Samples.quota_then_text Samples.half
                             Samples.rejects false 3 Samples.three_keys).2)).
Proof.
  split; [exact ControllerFacts.three_keys_well_formed|].
  exact (every_request_is_counted Samples.quota_then_text Samples.half Samples.rejects
           false 3 Samples.three_keys ControllerFacts.three_keys_well_formed).
Defined.

Lemma parser_exception_fails_the_attempt_witness :
  (∀ key, Samples.always_nested 0 key = Text (Samples.nested 100000)) ∧
  Samples.nested 100000 ≠ EmptyString ∧
  Samples.depth_limited
    (Extractor.json_str (Described.normalize (Str.strip (Samples.nested 100000)))) =
    OtherError
      "maximum recursion depth exceeded while decoding a JSON array from a unicode string" ∧
  attempt_body Samples.always_nested Samples.half Samples.depth_limited true 3 0
    (mkLoop Samples.three_keys None []) =
  attempt_body
    (λ _ _, Failure
       "maximum recursion depth exceeded while decoding a JSON array from a unicode string")
    Samples.half Samples.depth_limited true 3 0 (mkLoop Samples.three_keys None []).
Proof.
  assert (Samples.nested 100000 ≠ EmptyString) as Hne.
  { intros H.
    apply (f_equal (λ s, match s with EmptyString => true | String _ _ => false end)) in H.
    vm_compute in H. discriminate H. }
  assert (Samples.depth_limited
            (Extractor.json_str
               (Described.normalize (Str.strip (Samples.nested 100000)))) =
          OtherError
            "maximum recursion depth exceeded while decoding a JSON array from a unicode string")
    as Hjson by (vm_compute; reflexivity).
  split; [reflexivity|]. split; [exact Hne|]. split; [exact Hjson|].
  exact (parser_exception_fails_the_attempt Samples.always_nested Samples.half
           Samples.depth_limited true 3 0 (mkLoop Samples.three_keys None [])
           (Samples.nested 100000) _ eq_refl (λ _, eq_refl) Hne Hjson).
Defined.

End CallFacts.

(** ** More on the extractor and the classifier *)

Module TextFacts.
Import Extractor Described.
Local Open Scope string_scope.

(** *** Concatenation, length and slices *)

Lemma app_nil_l' (b : string) : EmptyString ++ b = b.
Proof. reflexivity. Qed.

Lemma app_cons (c : ascii) (a b : string) : String c a ++ b = String c (a ++ b).
Proof. reflexivity. Qed.

Lemma app_nil_r' (a : string) : a ++ EmptyString = a.
Proof. induction a as [|c a IH]; [done|]. by rewrite app_cons, IH. Qed.

Lemma app_assoc' (a b c : string) : a ++ (b ++ c) = (a ++ b) ++ c.
Proof. induction a as [|x a IH]; [done|]. by rewrite !app_cons, IH. Qed.

Lemma len_app (a b : string) : Str.len (a ++ b) = (Str.len a + Str.len b)%nat.
Proof.
  unfold Str.len. induction a as [|x a IH]; [done|].
  rewrite app_cons. simpl. by rewrite IH.
Qed.

Lemma substring_skip (a b : string) i m :
  String.substring (Str.len a + i) m (a ++ b) = String.substring i m b.
Proof.
  induction a as [|x a IH]; [done|]. rewrite app_cons. exact IH.
Qed.

Lemma substring_within (t s : string) i m :
  (i + m ≤ Str.len t)%nat →
  String.substring i m (t ++ s) = String.substring i m t.
Proof.
  revert i m. induction t as [|x t IH]; intros i m Hle.
  - unfold Str.len in Hle. simpl in Hle.
    assert (i = 0%nat ∧ m = 0%nat) as [-> ->] by lia. by destruct s.
  - rewrite app_cons. unfold Str.len in *. simpl in Hle.
    destruct i as [|i]; simpl.
    + destruct m as [|m]; [done|]. f_equal. apply IH. lia.
    + apply IH. lia.
Qed.

Lemma substring_all (s : string) : String.substring 0 (Str.len s) s = s.
Proof. unfold Str.len. induction s as [|x s IH]; [done|]. simpl. by rewrite IH. Qed.

(** A text is its first [k] characters followed by the rest. *)
Lemma take_drop (s : string) k :
  (k ≤ Str.len s)%nat →
  s = String.substring 0 k s ++ String.substring k (Str.len s - k) s.
Proof.
  unfold Str.len. revert k. induction s as [|x s IH]; intros k Hk.
  - simpl in Hk. by assert (k = 0%nat) as -> by lia.
  - destruct k as [|k].
    + simpl. rewrite app_nil_l'. f_equal. symmetry. apply substring_all.
    + simpl in *. rewrite app_cons. f_equal. apply IH. lia.
Qed.

Lemma prefix_split (p s : string) :
  String.prefix p s = true → s = p ++ Str.slice_from (Str.len p) s.
Proof.
  unfold Str.slice_from, Str.len. revert s. induction p as [|x p IH]; intros s Hp.
  - simpl. rewrite Nat.sub_0_r. symmetry. apply substring_all.
  - destruct s as [|y s]; [done|]. simpl in Hp.
    destruct (ascii_dec x y) as [->|]; [|done].
    rewrite app_cons. simpl. f_equal. by apply IH.
Qed.

Lemma prefix_app (p b : string) : String.prefix p (p ++ b) = true.
Proof.
  induction p as [|x p IH]; [by destruct b|].
  rewrite app_cons. simpl. by destruct (ascii_dec x x).
Qed.

Lemma suffix_split (s suf : string) :
  Str.endswith s suf = true → s = Str.slice_to_last (Str.len suf) s ++ suf.
Proof.
  unfold Str.endswith, Str.slice_to_last, Str.slice_from.
  intros [Hlen Heq%String.eqb_eq]%andb_true_iff. apply Nat.leb_le in Hlen.
  rewrite (take_drop s (Str.len s - Str.len suf)) at 1 by lia.
  by rewrite Heq.
Qed.

(** *** Positions of a character *)

Lemma first_index_app c (a b : string) :
  first_index c (a ++ b) =
  match first_index c a with
  | Some i => Some i
  | None => (λ k, Str.len a + k)%nat <$> first_index c b
  end.
Proof.
  induction a as [|x a IH].
  - rewrite app_nil_l'. simpl. by destruct (first_index c b).
  - rewrite app_cons. simpl. destruct (Ascii.eqb x c); [done|].
    rewrite IH. destruct (first_index c a); [done|].
    by destruct (first_index c b).
Qed.

Lemma last_index_app c (a b : string) :
  last_index c (a ++ b) =
  match last_index c b with
  | Some j => Some (Str.len a + j)%nat
  | None => last_index c a
  end.
Proof.
  induction a as [|x a IH].
  - rewrite app_nil_l'. simpl. by destruct (last_index c b).
  - rewrite app_cons. simpl. rewrite IH.
    by destruct (last_index c b).
Qed.

Lemma last_index_None c (s : string) :
  last_index c s = None ↔ first_index c s = None.
Proof.
  induction s as [|x s IH]; [done|]. simpl.
  destruct (Ascii.eqb x c).
  - by destruct (last_index c s).
  - destruct (last_index c s) as [j|], (first_index c s) as [i|]; simpl;
      [done | | | done].
    + destruct IH as [_ IH]. discriminate (IH eq_refl).
    + destruct IH as [IH _]. discriminate (IH eq_refl).
Qed.

Lemma last_index_lt c (s : string) j : last_index c s = Some j → (j < Str.len s)%nat.
Proof.
  unfold Str.len. revert j. induction s as [|x s IH]; intros j; simpl; [done|].
  destruct (last_index c s) as [k|].
  - intros [= <-]. specialize (IH k eq_refl). lia.
  - destruct (Ascii.eqb x c); [|done]. intros [= <-]. lia.
Qed.

Lemma brace_free_app (a b : string) :
  brace_free a → brace_free b → brace_free (a ++ b).
Proof.
  intros [Ha1 Ha2] [Hb1 Hb2]. split; rewrite first_index_app.
  - by rewrite Ha1, Hb1.
  - by rewrite Ha2, Hb2.
Qed.

Lemma brace_free_nil : brace_free EmptyString.
Proof. by split. Qed.

(** *** What normalizing removes *)

Lemma lstrip_split (s : string) :
  ∃ w, s = w ++ Str.lstrip s ∧ brace_free w.
Proof.
  induction s as [|x s (w & Hs & Hw)]; [by exists EmptyString|].
  simpl. destruct (Str.isspace x) eqn:Hx.
  - exists (String x w). rewrite app_cons. split; [by rewrite <- Hs|].
    destruct Hw as [Hw1 Hw2]. split; simpl.
    + destruct (Ascii.eqb_spec x "{") as [->|_]; [done|]. by rewrite Hw1.
    + destruct (Ascii.eqb_spec x "}") as [->|_]; [done|]. by rewrite Hw2.
  - exists EmptyString. split; [done | apply brace_free_nil].
Qed.

Lemma rstrip_split (s : string) :
  ∃ w, s = Str.rstrip s ++ w ∧ brace_free w.
Proof.
  induction s as [|x s (w & Hs & Hw)]; [by exists EmptyString|].
  simpl. destruct (Str.rstrip s) as [|y r] eqn:Hr.
  - rewrite app_nil_l' in Hs. subst w. destruct (Str.isspace x) eqn:Hx.
    + exists (String x s). split; [done|].
      destruct Hw as [Hw1 Hw2]. split; simpl.
      * destruct (Ascii.eqb_spec x "{") as [->|_]; [done|]. by rewrite Hw1.
      * destruct (Ascii.eqb_spec x "}") as [->|_]; [done|]. by rewrite Hw2.
    + exists s. by split.
  - exists w. split; [|done]. rewrite app_cons. by rewrite <- Hs.
Qed.

(** The input is the normalized text between two texts without braces. *)
Lemma normalize_split (raw : string) :
  ∃ p s, raw = p ++ normalize raw ++ s ∧ brace_free p ∧ brace_free s.
Proof.
  unfold normalize, Str.strip.
  destruct (lstrip_split raw) as (w1 & Hraw & Hw1).
  destruct (rstrip_split (Str.lstrip raw)) as (w2 & Hl & Hw2).
  set (t0 := Str.rstrip (Str.lstrip raw)) in *.
  assert (∃ p1 t1, t0 = p1 ++ t1 ∧ brace_free p1 ∧
            t1 = (if Str.startswith t0 "```json" then Str.slice_from 7 t0 else t0))
    as (p1 & t1 & Ht0 & Hp1 & Ht1).
  { destruct (Str.startswith t0 "```json") eqn:E.
    - exists "```json", (Str.slice_from 7 t0).
      split; [by apply (prefix_split "```json") | by split].
    - exists EmptyString, t0. split; [done|]. split; [apply brace_free_nil | done]. }
  rewrite <- Ht1.
  assert (∃ p2 t2, t1 = p2 ++ t2 ∧ brace_free p2 ∧
            t2 = (if Str.startswith t1 "```" then Str.slice_from 3 t1 else t1))
    as (p2 & t2 & Ht12 & Hp2 & Ht2).
  { destruct (Str.startswith t1 "```") eqn:E.
    - exists "```", (Str.slice_from 3 t1).
      split; [by apply (prefix_split "```") | by split].
    - exists EmptyString, t1. split; [done|]. split; [apply brace_free_nil | done]. }
  rewrite <- Ht2.
  assert (∃ s3 t3, t2 = t3 ++ s3 ∧ brace_free s3 ∧
            t3 = (if Str.endswith t2 "```" then Str.slice_to_last 3 t2 else t2))
    as (s3 & t3 & Ht23 & Hs3 & Ht3).
  { destruct (Str.endswith t2 "```") eqn:E.
    - exists "```", (Str.slice_to_last 3 t2).
      split; [by apply (suffix_split t2 "```") | by split].
    - exists EmptyString, t2. split; [by rewrite app_nil_r'|].
      split; [apply brace_free_nil | done]. }
  rewrite <- Ht3.
  exists (w1 ++ p1 ++ p2), (s3 ++ w2).
  split_and!.
  - rewrite Hraw at 1. rewrite Hl, Ht0, Ht12, Ht23.
    by rewrite !app_assoc'.
  - by repeat apply brace_free_app.
  - by apply brace_free_app.
Qed.

(** Texts without braces around a text do not change its brace span. *)
Lemma brace_span_between (raw p t s : string) i j :
  raw = p ++ t ++ s →
  brace_free p → brace_free s →
  first_index "{" raw = Some i →
  last_index "}" raw = Some j →
  (i < j)%nat →
  brace_span t = String.substring i (j - i + 1) raw.
Proof.
  intros -> [Hp1 Hp2] [Hs1 Hs2] Hi Hj Hij.
  rewrite !first_index_app, Hp1, Hs1 in Hi.
  rewrite !last_index_app, (proj2 (last_index_None _ _) Hs2),
    (proj2 (last_index_None _ _) Hp2) in Hj.
  unfold brace_span.
  destruct (first_index "{" t) as [i'|]; [|done].
  destruct (last_index "}" t) as [j'|] eqn:Hj'; [|done].
  simpl in Hi, Hj. injection Hi as <-. injection Hj as <-.
  apply last_index_lt in Hj'.
  rewrite (proj2 (Nat.ltb_lt i' j')) by lia.
  replace (Str.len p + j' - (Str.len p + i') + 1)%nat with (j' - i' + 1)%nat by lia.
  rewrite substring_skip, substring_within by lia. done.
Qed.

(** *** An object inside other text *)

(** X13. An object text, from an opening brace to a closing brace, that
    stands after a text without opening brace and before a text without
    closing brace (white space, fence markers, prose) is what the extractor
    hands to [json.loads]: the extractor returns what [json.loads] returns
    on the object text, or the diagnostic dictionary on a
    [JSONDecodeError], and another exception of [json.loads] leaves it. *)
Theorem embedded_object_is_extracted
    (json_loads : string → loaded) (pre mid post : string) :
  first_index "{" pre = None →
  first_index "}" post = None →
  let object := "{" ++ mid ++ "}" in
  let raw := pre ++ object ++ post in
  json_str (remove_code_block (Str.strip raw)) = object ∧
  _parse_structured_output json_loads raw =
    match json_loads object with
    | Loaded v => inl v
    | JSONDecodeError => inl (diagnostic (normalize raw))
    | OtherError msg => inr msg
    end.
Proof.
  intros Hpre Hpost object raw.
  assert (first_index "{" raw = Some (Str.len pre)) as Hi.
  { unfold raw, object. rewrite first_index_app, Hpre. simpl.
    by rewrite Nat.add_0_r. }
  assert (last_index "}" raw = Some (Str.len pre + S (Str.len mid))%nat) as Hj.
  { unfold raw, object. rewrite !last_index_app.
    rewrite (proj2 (last_index_None _ _) Hpost). simpl.
    do 2 f_equal. unfold Str.len. simpl. lia. }
  destruct (normalize_split raw) as (p & s & Hraw & Hp & Hs).
  assert (json_str (remove_code_block (Str.strip raw)) = object) as Hobj.
  { rewrite ExtractorFacts.json_str_brace_span.
    change (remove_code_block (Str.strip raw)) with (normalize raw).
    rewrite (brace_span_between raw p (normalize raw) s _ _ Hraw Hp Hs Hi Hj) by lia.
    replace (Str.len pre + S (Str.len mid) - Str.len pre + 1)%nat
      with (Str.len object) by (unfold object; rewrite !len_app; unfold Str.len; simpl; lia).
    unfold raw. rewrite <- (Nat.add_0_r (Str.len pre)) at 1.
    rewrite substring_skip, substring_within by lia.
    apply substring_all. }
  split; [exact Hobj|].
  unfold _parse_structured_output. by rewrite Hobj.
Qed.

Lemma embedded_object_is_extracted_witness :
  first_index "{" "Here is the result: " = None ∧
  first_index "}" " - done" = None ∧
  _parse_structured_output Samples.only_empty_object "Here is the result: {} - done" =
    inl (VDict []).
Proof.
  split; [reflexivity|]. split; [reflexivity|].
  exact (proj2 (embedded_object_is_extracted Samples.only_empty_object
                  "Here is the result: " EmptyString " - done" eq_refl eq_refl)).
Defined.

(** *** The shape of the parsed text *)

Lemma substring_snoc (s : string) k b :
  String.get k s = Some b →
  String.substring 0 (S k) s = String.substring 0 k s ++ String b EmptyString.
Proof.
  revert k. induction s as [|x s IH]; intros k Hk; [by destruct k|].
  destruct k as [|k]; simpl in *.
  - injection Hk as <-. by destruct s.
  - rewrite app_cons. f_equal. by apply IH.
Qed.

Lemma substring_braced (t : string) i j a b :
  String.get i t = Some a →
  String.get j t = Some b →
  (i < j)%nat →
  String.substring i (j - i + 1) t =
  String a (String.substring (S i) (j - i - 1) t ++ String b EmptyString).
Proof.
  revert i j. induction t as [|x t IH]; intros i j Hi Hj Hij; [by destruct i|].
  destruct j as [|j]; [lia|]. destruct i as [|i].
  - simpl in Hi, Hj. injection Hi as <-.
    replace (S j - 0 + 1)%nat with (S (S j)) by lia.
    replace (S j - 0 - 1)%nat with j by lia.
    change (String.substring 0 (S (S j)) (String x t))
      with (String x (String.substring 0 (S j) t)).
    change (String.substring 1 j (String x t)) with (String.substring 0 j t).
    by rewrite (substring_snoc t j b).
  - simpl in Hi, Hj.
    change (String.substring (S i) (S j - S i + 1) (String x t))
      with (String.substring i (S j - S i + 1) t).
    change (String.substring (S (S i)) (S j - S i - 1) (String x t))
      with (String.substring (S i) (S j - S i - 1) t).
    replace (S j - S i + 1)%nat with (j - i + 1)%nat by lia.
    replace (S j - S i - 1)%nat with (j - i - 1)%nat by lia.
    apply IH; [done | done | lia].
Qed.

(** X14. The text handed to [json.loads] is either the whole normalized
    text, which then has no opening brace before a later closing brace, or
    a text that begins with an opening brace and ends with a closing brace:
    a normalized text with such a pair of braces is never parsed whole
    unless it is itself of that shape, so that an array of objects reaches
    the parser without its brackets. *)
Theorem parsed_text_is_whole_or_braced (raw : string) :
  let t := normalize raw in
  (json_str t = t ∧
   ¬ ∃ i j, first_index "{" t = Some i ∧ last_index "}" t = Some j ∧ (i < j)%nat) ∨
  (∃ mid, json_str t = "{" ++ mid ++ "}").
Proof.
  intros t. rewrite ExtractorFacts.json_str_brace_span. unfold brace_span.
  destruct (first_index "{" t) as [i|] eqn:Hi;
    [|left; split; [done|]; by intros (i & j & ? & _)].
  destruct (last_index "}" t) as [j|] eqn:Hj;
    [|left; split; [done|]; by intros (i' & j' & _ & ? & _)].
  destruct (Nat.ltb_spec i j) as [Hlt|Hge].
  - right. exists (String.substring (S i) (j - i - 1) t).
    apply ExtractorFacts.first_index_get in Hi.
    apply ExtractorFacts.last_index_get in Hj.
    by rewrite (substring_braced t i j "{" "}").
  - left. split; [done|]. intros (i' & j' & [= <-] & [= <-] & Hlt). lia.
Qed.

(** *** The quota markers *)

Lemma find_from_found (sub s : string) i :
  (0 ≤ i)%Z →
  (0 ≤ Str.find_from sub s i)%Z ↔ ∃ a b, s = a ++ sub ++ b.
Proof.
  revert i. induction s as [|x s IH]; intros i Hi.
  - cbn [Str.find_from]. destruct (String.prefix sub EmptyString) eqn:Hp.
    + split; [|done]. intros _. exists EmptyString. apply prefix_split in Hp. eauto.
    + split; [lia|]. intros (a & b & Hs). destruct a; [|done].
      rewrite app_nil_l' in Hs. by rewrite Hs, prefix_app in Hp.
  - cbn [Str.find_from]. destruct (String.prefix sub (String x s)) eqn:Hp.
    + split; [|done]. intros _. exists EmptyString. apply prefix_split in Hp. eauto.
    + rewrite (IH (i + 1)%Z) by lia. split.
      * intros (a & b & ->). by exists (String x a), b.
      * intros (a & b & Hs). destruct a as [|y a].
        -- rewrite app_nil_l' in Hs. by rewrite Hs, prefix_app in Hp.
        -- rewrite app_cons in Hs. injection Hs as _ ->. by exists a, b.
Qed.

Lemma contains_iff (sub s : string) :
  Str.contains sub s = true ↔ ∃ a b, s = a ++ sub ++ b.
Proof.
  unfold Str.contains, Str.find. rewrite Z.leb_le. by apply find_from_found.
Qed.

Lemma lower_app (a b : string) : Str.lower (a ++ b) = Str.lower a ++ Str.lower b.
Proof.
  induction a as [|x a IH]; [done|]. rewrite app_cons. simpl.
  by rewrite IH, app_cons.
Qed.

Lemma lower_split (s x y : string) :
  Str.lower s = x ++ y →
  ∃ s1 s2, s = s1 ++ s2 ∧ Str.lower s1 = x ∧ Str.lower s2 = y.
Proof.
  revert s. induction x as [|c x IH]; intros s Hs.
  - exists EmptyString, s. by rewrite app_nil_l' in Hs.
  - destruct s as [|d s]; [done|]. rewrite app_cons in Hs. simpl in Hs.
    injection Hs as Hc Hs. destruct (IH s Hs) as (s1 & s2 & -> & H1 & H2).
    exists (String d s1), s2. split_and!; [done| |done]. simpl. by rewrite Hc, H1.
Qed.

Lemma contains_lower (marker msg : string) :
  Str.contains marker (Str.lower msg) = true ↔
  ∃ pre w post, msg = pre ++ w ++ post ∧ Str.lower w = marker.
Proof.
  rewrite contains_iff. split.
  - intros (a & b & Hl).
    destruct (lower_split _ _ _ Hl) as (pre & rest & -> & _ & Hrest).
    destruct (lower_split _ _ _ Hrest) as (w & post & -> & Hw & _).
    by exists pre, w, post.
  - intros (pre & w & post & -> & <-).
    exists (Str.lower pre), (Str.lower post). by rewrite !lower_app.
Qed.

(** X15. A failure is classified as a quota failure exactly when its
    message contains, in any mix of upper and lower case and anywhere in
    the text, one of [quota], [429] and [rate limit]. *)
Theorem quota_error_iff_marker (msg : string) :
  Controller.is_quota_error msg = true ↔
  ∃ pre w post,
    msg = pre ++ w ++ post ∧
    (Str.lower w = "quota" ∨ Str.lower w = "429" ∨ Str.lower w = "rate limit").
Proof.
  unfold Controller.is_quota_error. rewrite !orb_true_iff, !contains_lower. split.
  - intros [[(pre & w & post & ? & ?)|(pre & w & post & ? & ?)]
           |(pre & w & post & ? & ?)]; exists pre, w, post; auto.
  - intros (pre & w & post & ? & [?|[?|?]]); [left; left|left; right|right];
      by exists pre, w, post.
Qed.

End TextFacts.

(** ** The handlers that call the service *)

Module RouterFacts.
Import Pool Runs Controller Routers.

Section Handlers.
Variable generate_content : Z → string → response.
Variable random_uniform : Z → Q.
Variable json_loads : string → loaded.
Variable WebsiteAnalysisResponse : value → value → value → value → value + string.
Variable PlatformSuggestionsResponse : value → value + string.
Variable analysis_prompt : string + string.
Variable parse_campaign : payload → option value.
Variable CampaignGenerationResponse : value → payload → value + string.
Variable fallback_campaign : value + string.

Local Abbreviation call := (call generate_content random_uniform json_loads).
Local Abbreviation analyse_website :=
  (analyse_website generate_content random_uniform json_loads
     WebsiteAnalysisResponse analysis_prompt).
Local Abbreviation get_platform_suggestions :=
  (get_platform_suggestions generate_content random_uniform json_loads
     PlatformSuggestionsResponse).
Local Abbreviation generate_campaign :=
  (generate_campaign generate_content random_uniform json_loads
     parse_campaign CampaignGenerationResponse fallback_campaign).

(** The call of a handler when its three attempts fail. *)
Lemma call_exhausted self :
  well_formed self →
  (∀ k key, (0 ≤ k < 3)%Z → failure_of (generate_content k key) ≠ None) →
  ∃ st' key cause,
    failure_of (generate_content 2 key) = Some cause ∧
    call self = (Raise (ServiceFailed 3 (Some cause)), st').
Proof.
  intros Hwf Hfail. unfold Routers.call, call_gemini, range.
  assert (3 ≤ 1025)%Z as Hfloat by lia.
  destruct (ControllerFacts.run_attempts_all_fail generate_content random_uniform
              json_loads true 3 3 0 (mkLoop self None []) Hwf eq_refl Hfloat Hfail)
    as (st' & Hrun & _ & _ & Hlast).
  destruct (Hlast ltac:(lia)) as (key & _ & Herr).
  destruct (failure_of (generate_content (3 - 1) key)) as [cause|] eqn:Hcause;
    [|by destruct (Hfail 2%Z key ltac:(lia))].
  exists st', key, cause. split; [done|].
  change (Z.of_nat 3) with 3%Z in Hrun. by rewrite Hrun, Herr.
Qed.

(** X16. When the three attempts of the call fail, each handler raises an
    [HTTPException] with status 500 and none answers with its fallback:
    the website handlers wrap the terminal failure of the service, and
    [generate_campaign] wraps the [HTTPException] with status 503 that it
    has raised itself inside its own [try], so that the status the client
    gets is 500 and not 503. *)
Theorem exhausted_service_answers_500 self :
  well_formed self →
  (∀ k key, (0 ≤ k < 3)%Z → failure_of (generate_content k key) ≠ None) →
  ∃ key cause,
    failure_of (generate_content 2 key) = Some cause ∧
    (get_platform_suggestions self).1 =
      inr (HTTPException 500
             (Formatted "Platform suggestions failed: "
                (ServiceError (ServiceFailed 3 (Some cause))))) ∧
    (∀ prompt, analysis_prompt = inl prompt →
       (analyse_website self).1 =
         inr (HTTPException 500
                (Formatted "Website analysis failed: "
                   (ServiceError (ServiceFailed 3 (Some cause)))))) ∧
    (generate_campaign self).1 =
      inr (HTTPException 500
             (Formatted "Campaign generation failed: "
                (HTTPException 503 (Literal "AI service temporarily unavailable")))).
Proof.
  intros Hwf Hfail.
  destruct (call_exhausted self Hwf Hfail) as (st' & key & cause & Hcause & Hcall).
  exists key, cause. split; [done|]. split_and!.
  - unfold Routers.get_platform_suggestions. by rewrite Hcall.
  - intros prompt Hprompt. unfold Routers.analyse_website.
    by rewrite Hprompt, Hcall.
  - unfold Routers.generate_campaign. by rewrite Hcall.
Qed.

(** The call of a handler when an attempt reads a text [json.loads]
    rejects: the result is the diagnostic dictionary. *)
Lemma call_unparsable k text self :
  well_formed self →
  (0 ≤ k < 3)%Z →
  (∀ j key, (0 ≤ j < k)%Z → failure_of (generate_content j key) ≠ None) →
  (∀ key, generate_content k key = Text text) →
  text ≠ EmptyString →
  json_loads (Extractor.json_str (Described.normalize (Str.strip text))) =
    JSONDecodeError →
  ∃ st',
    call self =
      (Ret (Structured (Extractor.diagnostic (Described.normalize (Str.strip text)))),
       st').
Proof.
  intros Hwf Hk Hfail Htext Hne Hjson. unfold Routers.call, call_gemini, range.
  assert (seqZ 0 3 = seqZ 0 k ++ k :: seqZ (Z.succ k) (Z.pred (3 - k))) as ->.
  { replace 3%Z with (k + (3 - k))%Z at 1 by lia.
    by rewrite seqZ_app, Z.add_0_l, (seqZ_cons k) by lia. }
  assert (Extractor._parse_structured_output json_loads (Str.strip text) =
          inl (Extractor.diagnostic (Described.normalize (Str.strip text)))) as Hparsed.
  { unfold Extractor._parse_structured_output.
    change (Extractor.remove_code_block (Str.strip (Str.strip text)))
      with (Described.normalize (Str.strip text)).
    by rewrite Hjson. }
  destruct (CallFacts.run_attempts_until_text generate_content random_uniform
              json_loads true 3 k text
              (Extractor.diagnostic (Described.normalize (Str.strip text)))
              (mkLoop self None [])
              (seqZ (Z.succ k) (Z.pred (3 - k))) Hwf Hk ltac:(lia) Hfail Htext Hne
              (λ _, Hparsed))
    as (st' & Hrun & _ & _).
  exists st'. by rewrite Hrun.
Qed.

(** X17. When the attempt that ends the call reads a text that
    [json.loads] rejects, the diagnostic dictionary of the extractor has
    none of the keys the handlers look for: the website handlers answer
    with their canned fallback responses, and [generate_campaign] takes its
    fallback branch, answering with the fallback campaign of the request. *)
Theorem unparsable_answer_gets_fallback k text self :
  well_formed self →
  (0 ≤ k < 3)%Z →
  (∀ j key, (0 ≤ j < k)%Z → failure_of (generate_content j key) ≠ None) →
  (∀ key, generate_content k key = Text text) →
  text ≠ EmptyString →
  json_loads (Extractor.json_str (Described.normalize (Str.strip text))) =
    JSONDecodeError →
  (get_platform_suggestions self).1 = inl fallback_suggestions ∧
  (∀ prompt, analysis_prompt = inl prompt →
     (analyse_website self).1 = inl fallback_analysis) ∧
  (generate_campaign self).1 =
    answer_500 "Campaign generation failed: " (constructed fallback_campaign).
Proof.
  intros Hwf Hk Hfail Htext Hne Hjson.
  destruct (call_unparsable k text self Hwf Hk Hfail Htext Hne Hjson) as (st' & Hcall).
  split_and!.
  - unfold Routers.get_platform_suggestions. by rewrite Hcall.
  - intros prompt Hprompt. unfold Routers.analyse_website.
    by rewrite Hprompt, Hcall.
  - unfold Routers.generate_campaign. by rewrite Hcall.
Qed.

End Handlers.

Lemma exhausted_service_answers_500_witness :
  well_formed Samples.three_keys ∧
  (∀ k key, (0 ≤ k < 3)%Z → failure_of (Samples.always_unavailable k key) ≠ None) ∧
  (generate_campaign Samples.always_unavailable Samples.half Samples.rejects
     Samples.no_parts Samples.any_campaign Samples.canned_campaign
     Samples.three_keys).1 =
    inr (HTTPException 500
           (Formatted "Campaign generation failed: "
              (HTTPException 503 (Literal "AI service temporarily unavailable")))).
Proof.
  assert (∀ k key, (0 ≤ k < 3)%Z →
            failure_of (Samples.always_unavailable k key) ≠ None) as Hfail
    by (intros k key _; discriminate).
  split; [exact ControllerFacts.three_keys_well_formed|]. split; [exact Hfail|].
  destruct (exhausted_service_answers_500 Samples.always_unavailable Samples.half
              Samples.rejects Samples.any_analysis Samples.any_suggestions
              Samples.some_prompt Samples.no_parts Samples.any_campaign
              Samples.canned_campaign Samples.three_keys
              ControllerFacts.three_keys_well_formed Hfail)
    as (key & cause & _ & _ & _ & Hcampaign).
  exact Hcampaign.
Defined.

Lemma unparsable_answer_gets_fallback_witness :
  well_formed Samples.three_keys ∧
  (0 ≤ 0 < 3)%Z ∧
  (∀ key, Samples.always_prose 0 key = Text "Sorry, I cannot help with that.") ∧
  Samples.rejects
    (Extractor.json_str
       (Described.normalize (Str.strip "Sorry, I cannot help with that."))) =
    JSONDecodeError ∧
  (get_platform_suggestions Samples.always_prose Samples.half Samples.rejects
     Samples.any_suggestions Samples.three_keys).1 = inl fallback_suggestions ∧
  (analyse_website Samples.always_prose Samples.half Samples.rejects
     Samples.any_analysis Samples.some_prompt Samples.three_keys).1 =
    inl fallback_analysis.
Proof.
  split; [exact ControllerFacts.three_keys_well_formed|].
  split; [lia|]. split; [reflexivity|]. split; [reflexivity|].
  destruct (unparsable_answer_gets_fallback Samples.always_prose Samples.half
              Samples.rejects Samples.any_analysis Samples.any_suggestions
              Samples.some_prompt Samples.no_parts Samples.any_campaign
              Samples.canned_campaign 0 "Sorry, I cannot help with that."
              Samples.three_keys ControllerFacts.three_keys_well_formed
              ltac:(lia) ltac:(intros; lia) (λ _, eq_refl) ltac:(discriminate) eq_refl)
    as (Hsuggestions & Hanalysis & _).
  split; [exact Hsuggestions | exact (Hanalysis _ eq_refl)].
Defined.

End RouterFacts.
